(** * The Dexie storage helper of RxDB (src/plugins/dexie/dexie-helper.ts)

    A shallow embedding of the helper functions of the Dexie storage
    adapter, followed by the properties its specification states about
    them.  JavaScript strings are modelled as [string], objects used as
    dictionaries as [gmap string _], arrays as [list], and the two
    module-level [Map]s together with the objects they refer to as one
    explicit [World] record that every stateful function threads. *)

From Stdlib Require Import ZArith Ascii String.
From Stdlib Require OrderedTypeEx.
From stdpp Require Import gmap strings list fin_maps.

Local Open Scope string_scope.
Local Open Scope nat_scope.

(** ** Strings and arrays of strings *)

Module Js.

(** [str.startsWith(c)] for a one-character [c]. *)
Definition startsWith (str : string) (c : ascii) : bool :=
  match str with
  | String c0 _ => bool_decide (c0 = c)
  | EmptyString => false
  end.

(** [str.substring(1)]. *)
Definition substring1 (str : string) : string :=
  match str with
  | String _ rest => rest
  | EmptyString => EmptyString
  end.

(** [arr.join(sep)] on an array of strings. *)
Fixpoint join (sep : string) (arr : list string) : string :=
  match arr with
  | [] => ""
  | [x] => x
  | x :: rest => x +:+ sep +:+ join sep rest
  end.

End Js.

(** ** Schemas *)

(** [schema.primaryKey] is either a field path or a composite-key object
    whose [key] names the field that stores the assembled key. *)
Inductive PrimaryKey :=
| PrimaryKeyString (path : string)
| PrimaryKeyComposite (key : string) (fields : list string) (separator : string).

(** An entry of [schema.indexes]: a field path or an array of them. *)
Inductive IndexDef :=
| IndexString (path : string)
| IndexArray (paths : list string).

Record RxJsonSchema := {
  primaryKey : PrimaryKey;
  indexes : option (list IndexDef)
}.

(** Modelled from the spec: [getPrimaryFieldOfPrimaryKey] lives in
    rx-schema.ts, which is not part of the helper; the schema's primary key
    resolves to a concrete field path, the string itself or the [key] of a
    composite primary key. *)
Definition getPrimaryFieldOfPrimaryKey (pk : PrimaryKey) : string :=
  match pk with
  | PrimaryKeyString path => path
  | PrimaryKeyComposite key _ _ => key
  end.

(** ** Identifier escaping and the store schema *)

Definition DEXIE_DOCS_TABLE_NAME : string := "docs".
Definition DEXIE_DELETED_DOCS_TABLE_NAME : string := "deleted-docs".
Definition DEXIE_CHANGES_TABLE_NAME : string := "changes".

Definition DEXIE_PIPE_SUBSTITUTE : string := "RxDBSubstPIPE".

Definition dexieReplaceIfStartsWithPipe (str : string) : string :=
  if Js.startsWith str "|"%char then
    let withoutFirst := Js.substring1 str in
    DEXIE_PIPE_SUBSTITUTE +:+ withoutFirst
  else str.

(** [Array.isArray(index) ? index : [index]] *)
Definition arIndex (index : IndexDef) : list string :=
  match index with
  | IndexString path => [path]
  | IndexArray paths => paths
  end.

(** The index groups before escaping: the primary key, then the indexes. *)
Definition storeSchemaParts (rxJsonSchema : RxJsonSchema) : list (list string) :=
  let primaryKey := getPrimaryFieldOfPrimaryKey (primaryKey rxJsonSchema) in
  let parts := [[primaryKey]] in
  match indexes rxJsonSchema with
  | Some ixs => parts ++ map arIndex ixs
  | None => parts
  end.

(** The callback of the final [parts.map]. *)
Definition renderPart (part : list string) : string :=
  match part with
  | [single] => single
  | _ => "[" +:+ Js.join "+" part +:+ "]"
  end.

Definition getDexieStoreSchema (rxJsonSchema : RxJsonSchema) : string :=
  let parts := storeSchemaParts rxJsonSchema in
  let parts := map (map dexieReplaceIfStartsWithPipe) parts in
  Js.join ", " (map renderPart parts).

Definition getDexieEventKey (isLocal : bool) (primary revision : string) : string :=
  let prefix := if isLocal then "local" else "non-local" in
  let eventKey := prefix +:+ "|" +:+ primary +:+ "|" +:+ revision in
  eventKey.

(** ** Documents *)

(** The JSON scalars a document field or a settings property can hold. *)
Inductive JsValue :=
| JsNull
| JsBool (b : bool)
| JsNumber (n : Z)
| JsString (s : string).

#[global] Instance JsValue_eq_dec : EqDecision JsValue.
Proof. solve_decision. Defined.

(** The content of a plain object: its own properties, keyed by field path.
    A document as a table stores it is such a content. *)
Abbreviation DocData := (gmap string JsValue).

(** A document as the comparator receives it: a JavaScript object, which
    has an identity next to its content.  [===] on objects compares
    identities, so two objects with the same content are still two
    objects; [objId] tells them apart. *)
Record DocObject := {
  objId : nat;
  objData : DocData
}.

#[global] Instance DocObject_eq_dec : EqDecision DocObject.
Proof. solve_decision. Defined.

(** ** The sort comparator *)

Inductive SortDirection := asc | desc.

(** Of a mango query only [sort] is read here: each sort block is an object
    with one property, the field path, whose value is the direction. *)
Record MangoQuery := {
  sort : option (list (string * SortDirection))
}.

Definition sortDirectionToMingo (direction : SortDirection) : Z :=
  match direction with
  | asc => 1
  | desc => -1
  end.

(** The digit a character stands for. *)
Definition digitOf (c : ascii) : option N :=
  let n := N_of_ascii c in
  if decide (48 ≤ n ∧ n ≤ 57)%N then Some (n - 48)%N else None.

Fixpoint parseDigits (acc : N) (str : string) : option N :=
  match str with
  | EmptyString => Some acc
  | String c rest =>
      match digitOf c with
      | Some d => parseDigits (10 * acc + d)%N rest
      | None => None
      end
  end.

(** The array index a property name is, when it is one: the decimal
    numeral, without leading zeros, of a number below 2^32 - 1. *)
Definition arrayIndex (name : string) : option N :=
  match name with
  | EmptyString => None
  | String c rest =>
      if decide (c = "0"%char) then
        if decide (rest = EmptyString) then Some 0%N else None
      else
        match parseDigits 0 name with
        | Some n => if decide (n < 4294967295)%N then Some n else None
        | None => None
        end
  end.

(** An object is kept as the list of its properties in the order
    JavaScript enumerates them ([Object.keys], [for in]): the array
    indices first, in ascending order, then the other names in the order
    they were added.  [enumeratedBefore key k] tells whether a property
    [key] that is being added comes before the property [k] that is
    there. *)
Definition enumeratedBefore (key k : string) : bool :=
  match arrayIndex key, arrayIndex k with
  | Some n, Some m => bool_decide (n < m)%N
  | Some _, None => true
  | None, _ => false
  end.

(** A property that is there takes the new value and keeps its place. *)
Fixpoint objUpdate {V} (key : string) (v : V) (obj : list (string * V)) : list (string * V) :=
  match obj with
  | [] => []
  | (k, v0) :: rest =>
      if decide (k = key) then (k, v) :: rest else (k, v0) :: objUpdate key v rest
  end.

(** A property that is not there yet goes to its place in the order of
    enumeration. *)
Fixpoint objInsert {V} (key : string) (v : V) (obj : list (string * V)) : list (string * V) :=
  match obj with
  | [] => [(key, v)]
  | (k, v0) :: rest =>
      if enumeratedBefore key k then (key, v) :: obj
      else (k, v0) :: objInsert key v rest
  end.

(** [obj[key] = v] *)
Definition objSet {V} (key : string) (v : V) (obj : list (string * V)) : list (string * V) :=
  if decide (key ∈ obj.*1) then objUpdate key v obj else objInsert key v obj.

(** The body of [query.sort.forEach], on the pair of the two variables it
    assigns, [mingoSortObject] and [wasPrimaryInSort]. *)
Definition sortBlockStep (primaryKey : string)
    (acc : list (string * Z) * bool) (sortBlock : string * SortDirection)
    : list (string * Z) * bool :=
  let '(mingoSortObject, wasPrimaryInSort) := acc in
  let key := sortBlock.1 in
  let wasPrimaryInSort :=
    if decide (key = primaryKey) then true else wasPrimaryInSort in
  let direction := sortBlock.2 in
  (objSet key (sortDirectionToMingo direction) mingoSortObject, wasPrimaryInSort).

(** The sort object [getDexieSortComparator] hands to mingo, as the list
    of its properties in the order they are enumerated. *)
Definition buildMingoSortObject (schema : RxJsonSchema) (query : MangoQuery)
    : list (string * Z) :=
  let primaryKey := getPrimaryFieldOfPrimaryKey (primaryKey schema) in
  let '(mingoSortObject, wasPrimaryInSort) :=
    match sort query with
    | Some blocks => fold_left (sortBlockStep primaryKey) blocks ([], false)
    | None => ([], false)
    end in
  if wasPrimaryInSort then mingoSortObject
  else objSet primaryKey 1%Z mingoSortObject.

Module Mingo.
Section Sorting.

(** mingo's ordering of two resolved field values; a missing field
    resolves to [None].  mingo is a dependency and not part of the helper,
    so the ordering is a parameter of the model. *)
Variable compareValues : option JsValue → option JsValue → comparison.

Definition resolve (doc : DocObject) (key : string) : option JsValue :=
  objData doc !! key.

(** Whether [x] may stay in front of [y] under one sort key; direction
    [-1] reverses the order of the values, any other keeps it. *)
Definition inOrder (key : string) (direction : Z) (x y : DocObject) : bool :=
  match compareValues (resolve x key) (resolve y key) with
  | Eq => true
  | Lt => bool_decide (direction ≠ (-1)%Z)
  | Gt => bool_decide (direction = (-1)%Z)
  end.

Fixpoint insertSorted (key : string) (direction : Z)
    (x : DocObject) (sorted : list DocObject) : list DocObject :=
  match sorted with
  | [] => [x]
  | y :: rest =>
      if inOrder key direction x y then x :: sorted
      else y :: insertSorted key direction x rest
  end.

(** A stable sort by one key: documents with equal values keep the order
    they came in. *)
Definition sortByKey (key : string) (direction : Z)
    (coll : list DocObject) : list DocObject :=
  foldr (insertSorted key direction) [] coll.

(** Modelled from the spec: [mingo.find(coll, {}).sort(sortKeys)] is the
    stable multi-key sort over the candidates by the assembled
    key/direction list.  It sorts by the last key first and by the first
    key last, each pass stable, so the first key decides and later keys
    break ties. *)
Definition sort (coll : list DocObject) (sortKeys : list (string * Z))
    : list DocObject :=
  foldr (λ kd acc, sortByKey kd.1 kd.2 acc) coll sortKeys.

End Sorting.
End Mingo.

(** The comparator answers [-1] or [1]. *)
Definition getDexieSortComparator
    (compareValues : option JsValue → option JsValue → comparison)
    (schema : RxJsonSchema) (query : MangoQuery)
    : DocObject → DocObject → Z :=
  let mingoSortObject := buildMingoSortObject schema query in
  let fun_ (a b : DocObject) : Z :=
    let sorted := Mingo.sort compareValues [a; b] mingoSortObject in
    let first := head sorted in
    if decide (first = Some a) then (-1)%Z else 1%Z in
  fun_.




(** ** The connection registry *)

(** A reference to a plain object on the heap (a settings object). *)
Abbreviation ObjRef := nat.

(** What [getDexieDbWithTables] returns: the promise the async creation
    function produced, named by the order of creation. *)
Abbreviation Handle := nat.

(** The values a reference count takes in [REF_COUNT_PER_DEXIE_DB]. *)
Inductive JsNum :=
| Num (n : Z)
| NaN.

(** [(prevCount as any) - 1]; a missing entry reads as [undefined]. *)
Definition minusOne (prevCount : option JsNum) : JsNum :=
  match prevCount with
  | Some (Num n) => Num (n - 1)
  | Some NaN => NaN
  | None => NaN
  end.

(** [newCount === 0] *)
Definition isZero (newCount : JsNum) : bool :=
  match newCount with
  | Num n => bool_decide (n = 0%Z)
  | NaN => false
  end.

(** A [Dexie] instance: the arguments of its constructor and the stores
    declared with [version(1).stores]. *)
Record DexieDb := {
  dbName : string;
  dbOptions : ObjRef;
  dbStores : list (string * string)
}.

(** The calls that reach the physical database. *)
Inductive Event :=
| PhysicalOpen (h : Handle)
| PhysicalClose (h : Handle).

#[global] Instance Event_eq_dec : EqDecision Event.
Proof. solve_decision. Defined.

(** The state the helper reads and writes: the heap of plain objects, the
    two module-level maps, the instances created so far (handle [h] is the
    promise of the creation that made [dexieDbs !! h]), how each creation
    promise settled ([true] for fulfilled, [false] for rejected, no entry
    while pending), the physical calls made, oldest first, and the calls of
    [closeDexieDb] that wait at their [await], each by the handle it waits
    for, oldest first. *)
Record World := mkWorld {
  objects : list DocData;
  DEXIE_STATE_DB_BY_NAME : gmap string Handle;
  REF_COUNT_PER_DEXIE_DB : gmap Handle JsNum;
  dexieDbs : list DexieDb;
  settled : gmap Handle bool;
  calls : list Event;
  suspended : list Handle
}.

(** Modelled from the spec: [flatClone] lives in util.ts; it makes a
    shallow clone, a new object with the properties of the given one. *)
Definition flatClone (obj : ObjRef) (w : World) : ObjRef * World :=
  let clone := default ∅ (objects w !! obj) in
  (length (objects w),
   mkWorld (objects w ++ [clone]) (DEXIE_STATE_DB_BY_NAME w)
     (REF_COUNT_PER_DEXIE_DB w) (dexieDbs w) (settled w) (calls w)
     (suspended w)).

(** [obj[key] = v] on a heap object. *)
Definition setProperty (obj : ObjRef) (key : string) (v : JsValue) (w : World) : World :=
  mkWorld (alter (insert key v) obj (objects w)) (DEXIE_STATE_DB_BY_NAME w)
    (REF_COUNT_PER_DEXIE_DB w) (dexieDbs w) (settled w) (calls w)
    (suspended w).

(** The body of the async creation function up to its [await]: the
    instance is made from the clone of the settings, the stores are
    declared and [open()] is called.  The promise it returns is pending. *)
Definition createState (dexieDbName : string) (settings : ObjRef)
    (schema : RxJsonSchema) (w : World) : Handle * World :=
  let primaryPath := getPrimaryFieldOfPrimaryKey (primaryKey schema) in
  let '(useSettings, w) := flatClone settings w in
  let w := setProperty useSettings "autoOpen" (JsBool false) w in
  let dexieDb := {|
    dbName := dexieDbName;
    dbOptions := useSettings;
    dbStores := [ (DEXIE_DOCS_TABLE_NAME, getDexieStoreSchema schema);
                  (DEXIE_CHANGES_TABLE_NAME, "++sequence, id");
                  (DEXIE_DELETED_DOCS_TABLE_NAME, primaryPath +:+ ",$lastWriteAt") ]
  |} in
  let state := length (dexieDbs w) in
  (state,
   mkWorld (objects w) (DEXIE_STATE_DB_BY_NAME w) (REF_COUNT_PER_DEXIE_DB w)
     (dexieDbs w ++ [dexieDb]) (settled w) (calls w ++ [PhysicalOpen state])
     (suspended w)).

Definition dexieDbNameOf (databaseName collectionName : string) : string :=
  "rxdb-dexie-" +:+ databaseName +:+ "--" +:+ collectionName.

Definition getDexieDbWithTables (databaseName collectionName : string)
    (settings : ObjRef) (schema : RxJsonSchema) (w : World) : Handle * World :=
  let dexieDbName := dexieDbNameOf databaseName collectionName in
  match DEXIE_STATE_DB_BY_NAME w !! dexieDbName with
  | Some state => (state, w)
  | None =>
      let '(state, w) := createState dexieDbName settings schema w in
      let w :=
        mkWorld (objects w) (<[dexieDbName := state]> (DEXIE_STATE_DB_BY_NAME w))
          (REF_COUNT_PER_DEXIE_DB w) (dexieDbs w) (settled w) (calls w)
          (suspended w) in
      let w :=
        mkWorld (objects w) (DEXIE_STATE_DB_BY_NAME w)
          (<[state := Num 0]> (REF_COUNT_PER_DEXIE_DB w)) (dexieDbs w)
          (settled w) (calls w) (suspended w) in
      (state, w)
  end.

(** How an async function stands once its awaited promise is looked at. *)
Inductive Outcome :=
| Suspended
| Threw
| Returned.

(** [await statePromise] *)
Definition await (statePromise : Handle) (w : World) : Outcome :=
  match settled w !! statePromise with
  | None => Suspended
  | Some false => Threw
  | Some true => Returned
  end.

(** The rest of [closeDexieDb] after its [await]; it runs without
    interruption. *)
Definition closeDexieDbResume (statePromise : Handle) (w : World) : World :=
  let prevCount := REF_COUNT_PER_DEXIE_DB w !! statePromise in
  let newCount := minusOne prevCount in
  if isZero newCount then
    mkWorld (objects w) (DEXIE_STATE_DB_BY_NAME w)
      (delete statePromise (REF_COUNT_PER_DEXIE_DB w)) (dexieDbs w)
      (settled w) (calls w ++ [PhysicalClose statePromise]) (suspended w)
  else
    mkWorld (objects w) (DEXIE_STATE_DB_BY_NAME w)
      (<[statePromise := newCount]> (REF_COUNT_PER_DEXIE_DB w)) (dexieDbs w)
      (settled w) (calls w) (suspended w).

(** [closeDexieDb]: nothing happens before the [await].  On a fulfilled
    promise the rest of the body runs; on a rejected one the call rejects;
    on a pending one the call waits, and its rest runs when the promise is
    fulfilled (see [openSettles]). *)
Definition closeDexieDb (statePromise : Handle) (w : World) : Outcome * World :=
  match await statePromise w with
  | Suspended =>
      (Suspended,
       mkWorld (objects w) (DEXIE_STATE_DB_BY_NAME w) (REF_COUNT_PER_DEXIE_DB w)
         (dexieDbs w) (settled w) (calls w) (suspended w ++ [statePromise]))
  | Threw => (Threw, w)
  | Returned => (Returned, closeDexieDbResume statePromise w)
  end.

(** [open()] of a created instance finishes: the creation promise is
    fulfilled when it succeeded and rejected when it failed.  A promise
    settles once.  The calls of [closeDexieDb] that waited for it go on, in
    the order they were made, when it is fulfilled, and reject when it is
    rejected. *)
Definition openSettles (h : Handle) (ok : bool) (w : World) : World :=
  match dexieDbs w !! h, settled w !! h with
  | Some _, None =>
      let waiting := filter (λ h', h' = h) (suspended w) in
      let w :=
        mkWorld (objects w) (DEXIE_STATE_DB_BY_NAME w) (REF_COUNT_PER_DEXIE_DB w)
          (dexieDbs w) (<[h := ok]> (settled w)) (calls w)
          (filter (λ h', h' ≠ h) (suspended w)) in
      if ok then fold_left (λ w h', closeDexieDbResume h' w) waiting w else w
  | _, _ => w
  end.

(** What can happen to the registry, one after the other. *)
Inductive Call :=
| Acquire (databaseName collectionName : string) (settings : ObjRef) (schema : RxJsonSchema)
| Release (statePromise : Handle)
| OpenSettles (h : Handle) (ok : bool).

Definition step (w : World) (c : Call) : World :=
  match c with
  | Acquire databaseName collectionName settings schema =>
      (getDexieDbWithTables databaseName collectionName settings schema w).2
  | Release statePromise => (closeDexieDb statePromise w).2
  | OpenSettles h ok => openSettles h ok w
  end.

Definition run (cs : list Call) (w : World) : World := fold_left step cs w.

(** The number of [open()] calls, and of [close()] calls on one handle. *)
Definition isOpenCall (e : Event) : bool :=
  match e with
  | PhysicalOpen _ => true
  | PhysicalClose _ => false
  end.

Definition openCalls (w : World) : nat :=
  length (filter (λ e, isOpenCall e = true) (calls w)).

Definition closeCalls (h : Handle) (w : World) : nat :=
  length (filter (λ e, e = PhysicalClose h) (calls w)).

(** ** Reading documents *)

(** The resolved state of a handle, with the content of its two document
    tables at the time of the reads. *)
Record DexieStorageInternals := {
  dexieTable : gmap string DocData;
  dexieDeletedTable : gmap string DocData
}.

(** Dexie's [table.bulkGet(keys)]: one slot per key, in the order of the
    keys, [undefined] (here [None]) where the table has no such key. *)
Definition bulkGet (table : gmap string DocData) (keys : list string)
    : list (option DocData) :=
  map (λ key, table !! key) keys.

(** [arr[idx] = v] on an array: an index past the end extends the array,
    the slots in between read as [undefined]. *)
Definition arraySet {A} (idx : nat) (v : A) (arr : list (option A)) : list (option A) :=
  if decide (idx < length arr) then <[idx := Some v]> arr
  else arr ++ replicate (idx - length arr) None ++ [Some v].

(** [arr.forEach((x, idx) => ...)] from index [idx] on, threading the
    variable the callback assigns. *)
Fixpoint forEachFrom {A St} (f : A → nat → St → St) (arr : list A) (idx : nat) (s : St) : St :=
  match arr with
  | [] => s
  | x :: rest => forEachFrom f rest (S idx) (f x idx s)
  end.

(** [getDocsInDb] after [await internals] has produced the state. *)
Definition getDocsInDb (state : DexieStorageInternals) (docIds : list string)
    : list (option DocData) :=
  let nonDeletedDocsInDb := bulkGet (dexieTable state) docIds in
  let deletedDocsInDb := bulkGet (dexieDeletedTable state) docIds in
  let docsInDb := deletedDocsInDb in
  forEachFrom
    (λ doc idx docsInDb,
       match doc with
       | Some doc => arraySet idx doc docsInDb
       | None => docsInDb
       end)
    nonDeletedDocsInDb 0 docsInDb.

(** [stripDexieKey]: the clone of the document without [$lastWriteAt]. *)
Definition stripDexieKey (docData : DocData) : DocData :=
  let cloned := docData in
  delete "$lastWriteAt" cloned.

(** ** The order a sort object describes *)



(** ** Example data *)

Definition mergeExample : DexieStorageInternals := {|
  dexieTable := {[ "x" := {[ "v" := JsNumber 2 ]} ]};
  dexieDeletedTable :=
    {[ "x" := {[ "v" := JsNumber 1 ]}; "y" := {[ "v" := JsNumber 3 ]} ]}
|}.

Definition tombstoneExample : DexieStorageInternals := {|
  dexieTable := ∅;
  dexieDeletedTable :=
    {[ "y" := {[ "id" := JsString "y"; "$lastWriteAt" := JsNumber 5 ]} ]}
|}.


Definition idSchema : RxJsonSchema :=
  {| primaryKey := PrimaryKeyString "id"; indexes := None |}.


(** A world in which nothing has been acquired yet; the heap holds the
    settings objects of the callers. *)
Definition initialWorld (objs : list DocData) : World :=
  mkWorld objs ∅ ∅ [] ∅ [] [].

(** Only the promise of a created instance can have settled. *)
Definition settledAreCreated (w : World) : Prop :=
  ∀ h, length (dexieDbs w) ≤ h → settled w !! h = None.

(** No reference count is a positive number. *)
Definition countsNotPositive (w : World) : Prop :=
  ∀ h n, REF_COUNT_PER_DEXIE_DB w !! h = Some (Num n) → (n ≤ 0)%Z.

(** One acquire of [db]/[col] with the settings object [0], its open
    succeeding, and one release. *)
Definition acquiredOnce : World :=
  run [Acquire "db" "col" 0 idSchema; OpenSettles 0 true] (initialWorld [∅]).

Definition releasedOnce : World := run [Release 0] acquiredOnce.

(** One acquire whose open failed. *)
Definition openFailed : World :=
  run [Acquire "db" "col" 0 idSchema; OpenSettles 0 false] (initialWorld [∅]).

(** A fulfilled promise that did not come from [getDexieDbWithTables], so
    that the registry does not track it. *)
Definition untracked : World :=
  mkWorld [] ∅ ∅ [] {[ 7 := true ]} [] [].

(** ** Notions the further properties speak of *)

(** [str.includes(c)] for a one-character [c]. *)
Fixpoint includesChar (str : string) (c : ascii) : bool :=
  match str with
  | EmptyString => false
  | String c0 rest => bool_decide (c0 = c) || includesChar rest c
  end.

(** [obj[key]] on an object kept as its list of properties. *)
Fixpoint objGet {V} (key : string) (obj : list (string * V)) : option V :=
  match obj with
  | [] => None
  | (k, v) :: rest => if decide (k = key) then Some v else objGet key rest
  end.

(** What holds of the registry in every world the calls reach: an entry
    names an instance created under its name, and there are as many
    instances, and as many calls to open, as there are entries. *)
Definition registryConsistent (w : World) : Prop :=
  (∀ name h, DEXIE_STATE_DB_BY_NAME w !! name = Some h →
             dbName <$> dexieDbs w !! h = Some name) ∧
  size (DEXIE_STATE_DB_BY_NAME w) = length (dexieDbs w) ∧
  openCalls w = length (dexieDbs w).

(** * Properties *)

(** ** Identifier escaping *)

Lemma startsWith_pipe_false (name : string) :
  (∀ rest, name ≠ String "|"%char rest) → Js.startsWith name "|"%char = false.
Proof.
  intros Hno. destruct name as [|c rest]; [reflexivity|].
  cbn. case_bool_decide as Hc; [|reflexivity].
  subst c. exfalso. by apply (Hno rest).
Qed.

(** C6: a field name that does not start with the pipe character is
    returned unchanged; a name that starts with it comes back as the
    substitute token followed by the rest of the name, untouched; so
    ["|a.b"] yields the token immediately followed by ["a.b"]. *)
Theorem dexieReplaceIfStartsWithPipe_spec :
  (∀ name, (∀ rest, name ≠ String "|"%char rest) →
     dexieReplaceIfStartsWithPipe name = name) ∧
  (∀ rest, dexieReplaceIfStartsWithPipe (String "|"%char rest)
           = DEXIE_PIPE_SUBSTITUTE +:+ rest) ∧
  dexieReplaceIfStartsWithPipe "|a.b" = "RxDBSubstPIPEa.b".
Proof.
  split; [|split].
  - intros name Hno. unfold dexieReplaceIfStartsWithPipe.
    by rewrite (startsWith_pipe_false name Hno).
  - intros rest. reflexivity.
  - reflexivity.
Qed.

Lemma dexieReplaceIfStartsWithPipe_witness :
  dexieReplaceIfStartsWithPipe "a|b" = "a|b".
Proof.
  apply (proj1 dexieReplaceIfStartsWithPipe_spec).
  intros rest H. discriminate H.
Defined.

(** ** The store schema *)

Lemma join_cons (sep x : string) (rest : list string) :
  ∃ tail, Js.join sep (x :: rest) = x +:+ tail ∧
          (tail = "" ∨ ∃ more, tail = sep +:+ more).
Proof.
  destruct rest as [|y rest].
  - exists "". split; [|by left]. cbn [Js.join].
    induction x as [|c x IH]; [reflexivity|].
    change (String c x = String c (x +:+ "")). by f_equal.
  - exists (sep +:+ Js.join sep (y :: rest)). split; [reflexivity|].
    right. by eexists.
Qed.

(** C4: the store schema is the rendered groups joined by a comma and a
    space, and its first group is the escaped primary-key field, followed
    by one group per index; a group of one field renders as the escaped
    name alone, any other as the escaped names joined by [+] in brackets;
    for the primary key [id] with the indexes [["a"], ["b","c"]] the
    result is the literal [id, a, [b+c]]. *)
Theorem getDexieStoreSchema_primary_first :
  (∀ schema : RxJsonSchema,
     let first := dexieReplaceIfStartsWithPipe
                    (getPrimaryFieldOfPrimaryKey (primaryKey schema)) in
     getDexieStoreSchema schema
     = Js.join ", "
         (first :: map (λ index, renderPart
                                   (map dexieReplaceIfStartsWithPipe (arIndex index)))
                     (default [] (indexes schema))) ∧
     ∃ tail,
       getDexieStoreSchema schema = first +:+ tail ∧
       (tail = "" ∨ ∃ more, tail = ", " +:+ more)) ∧
  (∀ name : string, renderPart [name] = name) ∧
  (∀ part : list string,
     length part ≠ 1 → renderPart part = "[" +:+ Js.join "+" part +:+ "]") ∧
  getDexieStoreSchema
    {| primaryKey := PrimaryKeyString "id";
       indexes := Some [IndexArray ["a"]; IndexArray ["b"; "c"]] |}
  = "id, a, [b+c]".
Proof.
  split; [|split; [|split]]; [|reflexivity| |reflexivity].
  - intros schema first.
    assert (getDexieStoreSchema schema
            = Js.join ", "
                (first :: map (λ index, renderPart
                                 (map dexieReplaceIfStartsWithPipe (arIndex index)))
                            (default [] (indexes schema)))) as Hgroups.
    { unfold getDexieStoreSchema, storeSchemaParts.
      destruct (indexes schema) as [ixs|]; [|reflexivity].
      cbn [default app map renderPart]. by rewrite !map_map. }
    split; [exact Hgroups|]. rewrite Hgroups. apply join_cons.
  - intros [|name [|other part]] Hlen; [reflexivity| |reflexivity].
    by destruct Hlen.
Qed.

Lemma getDexieStoreSchema_primary_first_witness :
  renderPart ["b"; "c"] = "[b+c]".
Proof.
  apply (proj1 (proj2 (proj2 getDexieStoreSchema_primary_first))).
  cbn. lia.
Defined.

(** ** Reading documents from the two tables *)

Lemma bulkGet_length (table : gmap string DocData) (keys : list string) :
  length (bulkGet table keys) = length keys.
Proof. unfold bulkGet. by rewrite length_map. Qed.

Lemma bulkGet_lookup (table : gmap string DocData) (keys : list string) (i : nat) :
  bulkGet table keys !! i = (λ key, table !! key) <$> keys !! i.
Proof. unfold bulkGet. apply list_lookup_fmap. Qed.

Lemma arraySet_in_range {A} (idx : nat) (v : A) (arr : list (option A)) :
  idx < length arr → arraySet idx v arr = <[idx := Some v]> arr.
Proof. intros Hlt. unfold arraySet. by rewrite decide_True. Qed.

(** The override loop, slot by slot: a slot the loop visits with a document
    takes that document, every other slot keeps its value. *)
Lemma override_loop (overrides : list (option DocData)) :
  ∀ (idx : nat) (acc : list (option DocData)),
    idx + length overrides ≤ length acc →
    let result :=
      forEachFrom
        (λ doc idx docsInDb,
           match doc with
           | Some doc => arraySet idx doc docsInDb
           | None => docsInDb
           end)
        overrides idx acc in
    length result = length acc ∧
    ∀ j : nat,
      result !! j =
        match (if decide (idx ≤ j) then overrides !! (j - idx) else None) with
        | Some (Some doc) => Some (Some doc)
        | _ => acc !! j
        end.
Proof.
  induction overrides as [|doc rest IH]; intros idx acc Hlen; cbn [forEachFrom].
  - split; [reflexivity|]. intros j. case_decide; by rewrite ?lookup_nil.
  - cbn [length] in Hlen.
    set (acc' := match doc with
                 | Some d => arraySet idx d acc
                 | None => acc
                 end).
    assert (Hacc' : length acc' = length acc).
    { subst acc'. destruct doc as [d|]; [|reflexivity].
      rewrite arraySet_in_range by lia. apply length_insert. }
    destruct (IH (S idx) acc') as [IHlen IHget]; [lia|].
    split; [by rewrite IHlen|].
    intros j. rewrite IHget.
    destruct (decide (S idx ≤ j)) as [Hj|Hj].
    + rewrite decide_True by lia.
      replace (j - idx) with (S (j - S idx)) by lia. cbn [lookup list_lookup].
      destruct (rest !! (j - S idx)) as [[d'|]|] eqn:Hrest; try reflexivity.
      all: subst acc'; destruct doc as [d|]; try reflexivity.
      all: rewrite arraySet_in_range by lia.
      all: apply list_lookup_insert_ne; lia.
    + destruct (decide (idx ≤ j)) as [Hj'|Hj'].
      * assert (j = idx) as -> by lia. rewrite Nat.sub_diag. cbn [lookup list_lookup].
        subst acc'. destruct doc as [d|]; [|reflexivity].
        rewrite arraySet_in_range by lia.
        apply list_lookup_insert_eq. lia.
      * subst acc'. destruct doc as [d|]; [|reflexivity].
        rewrite arraySet_in_range by lia.
        apply list_lookup_insert_ne. lia.
Qed.

(** The result of [getDocsInDb], slot by slot. *)
Lemma getDocsInDb_slots (state : DexieStorageInternals) (docIds : list string) :
  length (getDocsInDb state docIds) = length docIds ∧
  ∀ (i : nat) (id : string),
    docIds !! i = Some id →
    getDocsInDb state docIds !! i =
      Some (match dexieTable state !! id with
            | Some active => Some active
            | None => dexieDeletedTable state !! id
            end).
Proof.
  unfold getDocsInDb.
  destruct (override_loop (bulkGet (dexieTable state) docIds) 0
              (bulkGet (dexieDeletedTable state) docIds)) as [Hlen Hget].
  { rewrite !bulkGet_length. lia. }
  split; [by rewrite Hlen, bulkGet_length|].
  intros i id Hid. rewrite Hget.
  rewrite decide_True by lia. rewrite Nat.sub_0_r.
  rewrite !bulkGet_lookup, Hid. cbn.
  by destruct (dexieTable state !! id).
Qed.

(** C3: [getDocsInDb] returns one slot per requested id, in the order of
    the ids; the slot of an id holds the value of the active table when the
    id is there (also when the tombstone table has it too), else the value
    of the tombstone table when the id is there, and is absent when neither
    table has the id: a miss is a value of the result, not a failure. *)
Theorem getDocsInDb_merge (state : DexieStorageInternals) (docIds : list string) :
  length (getDocsInDb state docIds) = length docIds ∧
  ∀ (i : nat) (id : string),
    docIds !! i = Some id →
    (∀ active, dexieTable state !! id = Some active →
       getDocsInDb state docIds !! i = Some (Some active)) ∧
    (∀ tombstone, dexieTable state !! id = None →
       dexieDeletedTable state !! id = Some tombstone →
       getDocsInDb state docIds !! i = Some (Some tombstone)) ∧
    (dexieTable state !! id = None → dexieDeletedTable state !! id = None →
       getDocsInDb state docIds !! i = Some None).
Proof.
  destruct (getDocsInDb_slots state docIds) as [Hlen Hget].
  split; [exact Hlen|].
  intros i id Hid. rewrite (Hget i id Hid). repeat split.
  - by intros active ->.
  - by intros tombstone -> ->.
  - by intros -> ->.
Qed.

Lemma getDocsInDb_merge_witness :
  getDocsInDb mergeExample ["x"; "y"; "z"] !! 1
  = Some (Some {[ "v" := JsNumber 3 ]}).
Proof.
  exact (proj1 (proj2 (proj2 (getDocsInDb_merge mergeExample ["x"; "y"; "z"])
                         1 "y" eq_refl))
           {[ "v" := JsNumber 3 ]} eq_refl eq_refl).
Defined.

(** ** The bookkeeping field *)

(** Against C7 as stated: a record read from the tombstone table comes out
    of [getDocsInDb] with its [$lastWriteAt] field still in it. *)
Lemma getDocsInDb_keeps_lastWriteAt :
  ¬ (∀ (state : DexieStorageInternals) (docIds : list string)
       (i : nat) (doc : DocData),
       getDocsInDb state docIds !! i = Some (Some doc) →
       doc !! "$lastWriteAt" = None).
Proof.
  intros Hstripped.
  specialize (Hstripped tombstoneExample ["y"] 0
                {[ "id" := JsString "y"; "$lastWriteAt" := JsNumber 5 ]} eq_refl).
  discriminate Hstripped.
Qed.

(** C7, amended: [getDocsInDb] hands out every record as its table holds
    it, [$lastWriteAt] included; the field is removed by [stripDexieKey],
    the function a caller applies before a record leaves the storage: its
    result has no [$lastWriteAt] and every other field as it was. *)
Theorem stripDexieKey_strips_getDocsInDb_does_not :
  (∀ (state : DexieStorageInternals) (docIds : list string)
     (i : nat) (doc : DocData),
     getDocsInDb state docIds !! i = Some (Some doc) →
     ∃ id, docIds !! i = Some id ∧
           (dexieTable state !! id = Some doc ∨
            dexieDeletedTable state !! id = Some doc)) ∧
  (∀ docData : DocData,
     stripDexieKey docData !! "$lastWriteAt" = None ∧
     ∀ key, key ≠ "$lastWriteAt" → stripDexieKey docData !! key = docData !! key).
Proof.
  split.
  - intros state docIds i doc Hdoc.
    destruct (getDocsInDb_slots state docIds) as [Hlen Hget].
    destruct (docIds !! i) as [id|] eqn:Hid.
    + exists id. split; [reflexivity|].
      rewrite (Hget i id Hid) in Hdoc.
      destruct (dexieTable state !! id) as [active|]; simplify_eq; auto.
    + apply lookup_ge_None in Hid.
      assert (getDocsInDb state docIds !! i = None) as Hnone.
      { apply lookup_ge_None. lia. }
      congruence.
  - intros docData. unfold stripDexieKey. split.
    + apply lookup_delete_eq.
    + intros key Hkey. by apply lookup_delete_ne.
Qed.

Lemma stripDexieKey_witness :
  ∃ id, ["y"] !! 0 = Some id ∧
        (dexieTable tombstoneExample !! id
           = Some {[ "id" := JsString "y"; "$lastWriteAt" := JsNumber 5 ]} ∨
         dexieDeletedTable tombstoneExample !! id
           = Some {[ "id" := JsString "y"; "$lastWriteAt" := JsNumber 5 ]}).
Proof.
  exact (proj1 stripDexieKey_strips_getDocsInDb_does_not tombstoneExample ["y"] 0
           {[ "id" := JsString "y"; "$lastWriteAt" := JsNumber 5 ]} eq_refl).
Defined.

(** ** The sort object *)

Lemma objUpdate_keys {V} (key : string) (v : V) (obj : list (string * V)) :
  (objUpdate key v obj).*1 = obj.*1.
Proof.
  induction obj as [|[k v0] rest IH]; cbn; [reflexivity|].
  case_decide; cbn; [reflexivity|]. by f_equal.
Qed.



Lemma objSet_keys_in {V} (key : string) (v : V) (obj : list (string * V)) :
  key ∈ obj.*1 → (objSet key v obj).*1 = obj.*1.
Proof.
  intros Hin. unfold objSet. rewrite decide_True by done. apply objUpdate_keys.
Qed.



Lemma objGet_None {V} (key : string) (obj : list (string * V)) :
  key ∉ obj.*1 → objGet key obj = None.
Proof.
  induction obj as [|[k v] rest IH]; [done|]. cbn.
  rewrite not_elem_of_cons. intros [Hne Hnotin].
  rewrite decide_False by congruence. by apply IH.
Qed.










(** ** The comparator as an order *)

Section ComparatorOrder.

Variable compareValues : option JsValue → option JsValue → comparison.

(** The comparison of field values is a total preorder: turning the
    arguments round turns the answer round, and "not greater" is
    transitive.  Values that compare as equal need not be the same. *)
Hypothesis compare_antisym : ∀ x y, compareValues y x = CompOpp (compareValues x y).
Hypothesis compare_le_trans :
  ∀ x y z, compareValues x y ≠ Gt → compareValues y z ≠ Gt → compareValues x z ≠ Gt.














End ComparatorOrder.

(** The example ordering of field values is a total preorder, and it
    tells different strings apart. *)







(** ** The registry *)

(** The rest of a release, and so the releases that go on when an open
    succeeds, touch the counts and the list of calls only. *)
Lemma closeDexieDbResume_fields (h : Handle) (w : World) :
  objects (closeDexieDbResume h w) = objects w ∧
  DEXIE_STATE_DB_BY_NAME (closeDexieDbResume h w) = DEXIE_STATE_DB_BY_NAME w ∧
  dexieDbs (closeDexieDbResume h w) = dexieDbs w ∧
  settled (closeDexieDbResume h w) = settled w ∧
  suspended (closeDexieDbResume h w) = suspended w.
Proof. unfold closeDexieDbResume. by destruct (isZero _). Qed.

Lemma resumeAll_fields (hs : list Handle) (w : World) :
  let w' := fold_left (λ w h', closeDexieDbResume h' w) hs w in
  objects w' = objects w ∧
  DEXIE_STATE_DB_BY_NAME w' = DEXIE_STATE_DB_BY_NAME w ∧
  dexieDbs w' = dexieDbs w ∧
  settled w' = settled w ∧
  suspended w' = suspended w.
Proof.
  revert w. induction hs as [|h hs IH]; intros w; [done|]. cbn.
  destruct (IH (closeDexieDbResume h w)) as (-> & -> & -> & -> & ->).
  apply closeDexieDbResume_fields.
Qed.

Lemma closeDexieDb_fields (h : Handle) (w : World) :
  objects (closeDexieDb h w).2 = objects w ∧
  DEXIE_STATE_DB_BY_NAME (closeDexieDb h w).2 = DEXIE_STATE_DB_BY_NAME w ∧
  dexieDbs (closeDexieDb h w).2 = dexieDbs w ∧
  settled (closeDexieDb h w).2 = settled w.
Proof.
  unfold closeDexieDb. destruct (await h w); cbn [snd]; [done..|].
  destruct (closeDexieDbResume_fields h w) as (? & ? & ? & ? & _). done.
Qed.

Lemma openSettles_fields (h : Handle) (ok : bool) (w : World) :
  objects (openSettles h ok w) = objects w ∧
  DEXIE_STATE_DB_BY_NAME (openSettles h ok w) = DEXIE_STATE_DB_BY_NAME w ∧
  dexieDbs (openSettles h ok w) = dexieDbs w ∧
  settled (openSettles h ok w)
  = match dexieDbs w !! h, settled w !! h with
    | Some _, None => <[h := ok]> (settled w)
    | _, _ => settled w
    end.
Proof.
  unfold openSettles.
  destruct (dexieDbs w !! h), (settled w !! h); try done.
  destruct ok; [|done].
  match goal with
  | |- context [fold_left _ ?hs ?w0] =>
      destruct (resumeAll_fields hs w0) as (-> & -> & -> & -> & _)
  end.
  done.
Qed.

Lemma getDexieDbWithTables_existing
    (databaseName collectionName : string) (settings : ObjRef)
    (schema : RxJsonSchema) (w : World) (state : Handle) :
  DEXIE_STATE_DB_BY_NAME w !! dexieDbNameOf databaseName collectionName = Some state →
  getDexieDbWithTables databaseName collectionName settings schema w = (state, w).
Proof. intros Hentry. unfold getDexieDbWithTables. by rewrite Hentry. Qed.

(** The first acquire for a name, field by field. *)
Lemma getDexieDbWithTables_fresh
    (databaseName collectionName : string) (settings : ObjRef)
    (schema : RxJsonSchema) (w : World) :
  let dexieDbName := dexieDbNameOf databaseName collectionName in
  DEXIE_STATE_DB_BY_NAME w !! dexieDbName = None →
  ∃ w', getDexieDbWithTables databaseName collectionName settings schema w
        = (length (dexieDbs w), w') ∧
    DEXIE_STATE_DB_BY_NAME w'
      = <[dexieDbName := length (dexieDbs w)]> (DEXIE_STATE_DB_BY_NAME w) ∧
    REF_COUNT_PER_DEXIE_DB w'
      = <[length (dexieDbs w) := Num 0]> (REF_COUNT_PER_DEXIE_DB w) ∧
    settled w' = settled w ∧
    calls w' = (calls w ++ [PhysicalOpen (length (dexieDbs w))])%list ∧
    length (dexieDbs w') = S (length (dexieDbs w)) ∧
    objects w'
      = alter (insert "autoOpen" (JsBool false)) (length (objects w))
          (objects w ++ [default ∅ (objects w !! settings)])%list ∧
    (dbOptions <$> dexieDbs w' !! length (dexieDbs w)) = Some (length (objects w)).
Proof.
  intros name Hfresh. unfold getDexieDbWithTables. fold name. rewrite Hfresh.
  eexists. split; [reflexivity|]. cbn.
  repeat split; try reflexivity.
  - rewrite length_app. cbn. lia.
  - rewrite lookup_app_r by lia. by rewrite Nat.sub_diag.
Qed.

Lemma step_keeps_entry (c : Call) (w : World) (dexieDbName : string) (state : Handle) :
  DEXIE_STATE_DB_BY_NAME w !! dexieDbName = Some state →
  DEXIE_STATE_DB_BY_NAME (step w c) !! dexieDbName = Some state.
Proof.
  intros Hentry. destruct c as [db col settings schema|h|h ok]; cbn [step].
  - destruct (DEXIE_STATE_DB_BY_NAME w !! dexieDbNameOf db col) as [h|] eqn:Hother.
    + by rewrite (getDexieDbWithTables_existing db col settings schema w h Hother).
    + destruct (getDexieDbWithTables_fresh db col settings schema w Hother)
        as (w' & Hres & Hnames & _).
      rewrite Hres. cbn [snd]. rewrite Hnames.
      rewrite lookup_insert_ne; [done|]. intros <-. congruence.
  - by rewrite (proj1 (proj2 (closeDexieDb_fields h w))).
  - by rewrite (proj1 (proj2 (openSettles_fields h ok w))).
Qed.

Lemma run_keeps_entry (cs : list Call) (w : World) (dexieDbName : string) (state : Handle) :
  DEXIE_STATE_DB_BY_NAME w !! dexieDbName = Some state →
  DEXIE_STATE_DB_BY_NAME (run cs w) !! dexieDbName = Some state.
Proof.
  revert w. induction cs as [|c cs IH]; intros w Hentry; [done|].
  cbn. apply IH. by apply step_keeps_entry.
Qed.

Lemma step_keeps_settled (c : Call) (w : World) (h : Handle) (ok : bool) :
  settled w !! h = Some ok → settled (step w c) !! h = Some ok.
Proof.
  intros Hset. destruct c as [db col settings schema|h'|h' ok']; cbn [step].
  - destruct (DEXIE_STATE_DB_BY_NAME w !! dexieDbNameOf db col) as [h0|] eqn:Hother.
    + by rewrite (getDexieDbWithTables_existing db col settings schema w h0 Hother).
    + destruct (getDexieDbWithTables_fresh db col settings schema w Hother)
        as (w' & Hres & _ & _ & Hsettled & _).
      rewrite Hres. cbn [snd]. by rewrite Hsettled.
  - by rewrite (proj2 (proj2 (proj2 (closeDexieDb_fields h' w)))).
  - rewrite (proj2 (proj2 (proj2 (openSettles_fields h' ok' w)))).
    destruct (dexieDbs w !! h'), (settled w !! h') eqn:Hh'; try done.
    rewrite lookup_insert_ne; [done|]. intros <-. congruence.
Qed.

Lemma run_keeps_settled (cs : list Call) (w : World) (h : Handle) (ok : bool) :
  settled w !! h = Some ok → settled (run cs w) !! h = Some ok.
Proof.
  revert w. induction cs as [|c cs IH]; intros w Hset; [done|].
  cbn. apply IH. by apply step_keeps_settled.
Qed.

Lemma step_settledAreCreated (c : Call) (w : World) :
  settledAreCreated w → settledAreCreated (step w c).
Proof.
  intros Hcreated. destruct c as [db col settings schema|h|h ok]; cbn [step].
  - destruct (DEXIE_STATE_DB_BY_NAME w !! dexieDbNameOf db col) as [h|] eqn:Hother.
    + by rewrite (getDexieDbWithTables_existing db col settings schema w h Hother).
    + destruct (getDexieDbWithTables_fresh db col settings schema w Hother)
        as (w' & Hres & _ & _ & Hsettled & _ & Hlen & _).
      rewrite Hres. cbn [snd]. intros h Hh. rewrite Hsettled.
      apply Hcreated. lia.
  - destruct (closeDexieDb_fields h w) as (_ & _ & Hdbs & Hsettled).
    intros h' Hh'. rewrite Hsettled. apply Hcreated. by rewrite <- Hdbs.
  - destruct (openSettles_fields h ok w) as (_ & _ & Hdbs & Hsettled).
    intros h' Hh'. rewrite Hsettled. rewrite Hdbs in Hh'.
    destruct (dexieDbs w !! h) as [db|] eqn:Hdb; [|by apply Hcreated].
    destruct (settled w !! h); [by apply Hcreated|].
    apply lookup_lt_Some in Hdb.
    rewrite lookup_insert_ne by lia. by apply Hcreated.
Qed.

(** Every world the calls can reach from an initial one is of that kind. *)
Lemma run_settledAreCreated (cs : list Call) (w : World) :
  settledAreCreated w → settledAreCreated (run cs w).
Proof.
  revert w. induction cs as [|c cs IH]; intros w Hcreated; [done|].
  cbn. apply IH. by apply step_settledAreCreated.
Qed.

Lemma initialWorld_settledAreCreated (objs : list DocData) :
  settledAreCreated (initialWorld objs).
Proof. intros h _. apply lookup_empty. Qed.

(** C9: the creation of a handle is memoized per logical name.  When an
    acquire returns, the registry maps the name to the handle it returned;
    when the name was new, that acquire made the one call to open and the
    handle is still pending; and whatever happens afterwards, every later
    acquire for the name returns that same handle and changes nothing, so
    it makes no second call to open. *)
Theorem getDexieDbWithTables_memoized
    (databaseName collectionName : string) (settings : ObjRef)
    (schema : RxJsonSchema) (w w1 : World) (state : Handle) :
  getDexieDbWithTables databaseName collectionName settings schema w = (state, w1) →
  let dexieDbName := dexieDbNameOf databaseName collectionName in
  DEXIE_STATE_DB_BY_NAME w1 !! dexieDbName = Some state ∧
  (DEXIE_STATE_DB_BY_NAME w !! dexieDbName = None →
   calls w1 = (calls w ++ [PhysicalOpen state])%list ∧
   openCalls w1 = S (openCalls w) ∧
   (settledAreCreated w → await state w1 = Suspended)) ∧
  ∀ (later : list Call) (settings' : ObjRef) (schema' : RxJsonSchema),
    getDexieDbWithTables databaseName collectionName settings' schema' (run later w1)
    = (state, run later w1).
Proof.
  intros Hacquire name.
  assert (DEXIE_STATE_DB_BY_NAME w1 !! name = Some state) as Hentry.
  { destruct (DEXIE_STATE_DB_BY_NAME w !! name) as [h|] eqn:Hw.
    - rewrite (getDexieDbWithTables_existing _ _ settings schema w h Hw) in Hacquire.
      by simplify_eq.
    - destruct (getDexieDbWithTables_fresh databaseName collectionName settings
                  schema w Hw) as (w' & Hres & Hnames & _).
      rewrite Hres in Hacquire. simplify_eq. rewrite Hnames.
      apply lookup_insert_eq. }
  split; [exact Hentry|]. split.
  - intros Hw.
    destruct (getDexieDbWithTables_fresh databaseName collectionName settings
                schema w Hw) as (w' & Hres & _ & _ & Hsettled & Hcalls & _).
    rewrite Hres in Hacquire. simplify_eq. split; [exact Hcalls|]. split.
    + unfold openCalls. rewrite Hcalls, filter_app, length_app.
      rewrite filter_cons_True by reflexivity. cbn. lia.
    + intros Hcreated. unfold await. rewrite Hsettled.
      by rewrite (Hcreated (length (dexieDbs w))).
  - intros later settings' schema'.
    apply getDexieDbWithTables_existing. by apply run_keeps_entry.
Qed.

Lemma getDexieDbWithTables_memoized_witness :
  getDexieDbWithTables "db" "col" 0 idSchema
    (run [Release 0; OpenSettles 0 true; Acquire "other" "col" 0 idSchema]
       (getDexieDbWithTables "db" "col" 0 idSchema (initialWorld [∅])).2)
  = (0, run [Release 0; OpenSettles 0 true; Acquire "other" "col" 0 idSchema]
          (getDexieDbWithTables "db" "col" 0 idSchema (initialWorld [∅])).2).
Proof.
  exact (proj2 (proj2 (getDexieDbWithTables_memoized "db" "col" 0 idSchema
                         (initialWorld [∅]) _ 0 eq_refl)) _ 0 idSchema).
Defined.

(** ** The settings object *)

(** C10: an acquire leaves the caller's settings object as it was; when it
    creates an instance, the instance gets another object, the clone, and
    the clone is the settings with [autoOpen] set to false. *)
Theorem getDexieDbWithTables_keeps_settings
    (databaseName collectionName : string) (settings : ObjRef)
    (schema : RxJsonSchema) (w : World) :
  is_Some (objects w !! settings) →
  let result := getDexieDbWithTables databaseName collectionName settings schema w in
  objects result.2 !! settings = objects w !! settings ∧
  (DEXIE_STATE_DB_BY_NAME w !! dexieDbNameOf databaseName collectionName = None →
   ∃ useSettings,
     dbOptions <$> dexieDbs result.2 !! result.1 = Some useSettings ∧
     useSettings ≠ settings ∧
     objects result.2 !! useSettings
     = Some (<["autoOpen" := JsBool false]> (default ∅ (objects w !! settings)))).
Proof.
  intros Hexists result. subst result.
  apply lookup_lt_is_Some in Hexists.
  destruct (DEXIE_STATE_DB_BY_NAME w !! dexieDbNameOf databaseName collectionName)
    as [h|] eqn:Hw.
  - rewrite (getDexieDbWithTables_existing _ _ settings schema w h Hw).
    split; [reflexivity|]. intros Hnone. discriminate Hnone.
  - destruct (getDexieDbWithTables_fresh databaseName collectionName settings
                schema w Hw) as (w' & Hres & _ & _ & _ & _ & _ & Hobjects & Hoptions).
    rewrite Hres. cbn [fst snd]. rewrite Hobjects. split.
    + rewrite list_lookup_alter_ne by lia. by apply lookup_app_l.
    + intros _. exists (length (objects w)). split; [exact Hoptions|].
      split; [lia|].
      rewrite list_lookup_alter_eq, lookup_app_r by lia.
      by rewrite Nat.sub_diag.
Qed.

Lemma getDexieDbWithTables_keeps_settings_witness :
  objects (getDexieDbWithTables "db" "col" 0 idSchema
             (initialWorld [ {[ "autoOpen" := JsBool true ]} ])).2 !! 0
  = Some {[ "autoOpen" := JsBool true ]}.
Proof.
  refine (proj1 (getDexieDbWithTables_keeps_settings "db" "col" 0 idSchema
                   (initialWorld [ {[ "autoOpen" := JsBool true ]} ]) _)).
  cbn. by eexists.
Defined.

(** ** Releasing *)

(** [closeDexieDb] fails only as its [await] fails. *)
Lemma closeDexieDb_outcome (statePromise : Handle) (w : World) :
  (closeDexieDb statePromise w).1 = await statePromise w.
Proof. unfold closeDexieDb. by destruct (await statePromise w). Qed.

(** A count that is not a positive number is never decremented to zero. *)
Lemma minusOne_not_zero (prevCount : option JsNum) :
  (∀ n, prevCount = Some (Num n) → (n ≤ 0)%Z) →
  isZero (minusOne prevCount) = false.
Proof.
  intros Hcount. destruct prevCount as [[n|]|]; cbn; [|done..].
  apply bool_decide_eq_false_2. specialize (Hcount n eq_refl). lia.
Qed.

(** Where no count is positive, the rest of a release closes nothing and
    leaves no count positive. *)
Lemma closeDexieDbResume_keeps_counts (h : Handle) (w : World) :
  countsNotPositive w →
  countsNotPositive (closeDexieDbResume h w) ∧
  calls (closeDexieDbResume h w) = calls w.
Proof.
  intros Hcounts. unfold closeDexieDbResume.
  rewrite minusOne_not_zero by apply Hcounts. split; [|reflexivity].
  intros h' n. cbn. destruct (decide (h = h')) as [<-|Hne].
  - rewrite lookup_insert_eq.
    destruct (REF_COUNT_PER_DEXIE_DB w !! h) as [[m|]|] eqn:Hm; cbn; [|done..].
    intros [= <-]. specialize (Hcounts h m Hm). lia.
  - rewrite lookup_insert_ne by done. apply Hcounts.
Qed.

Lemma resumeAll_keeps_counts (hs : list Handle) (w : World) :
  countsNotPositive w →
  countsNotPositive (fold_left (λ w h', closeDexieDbResume h' w) hs w) ∧
  calls (fold_left (λ w h', closeDexieDbResume h' w) hs w) = calls w.
Proof.
  revert w. induction hs as [|h hs IH]; intros w Hcounts; [done|]. cbn.
  destruct (closeDexieDbResume_keeps_counts h w Hcounts) as [Hc Hcalls].
  destruct (IH _ Hc) as [Hc' Hcalls']. split; [exact Hc'|congruence].
Qed.

Lemma closeDexieDb_keeps_counts (h : Handle) (w : World) :
  countsNotPositive w →
  countsNotPositive (closeDexieDb h w).2 ∧
  calls (closeDexieDb h w).2 = calls w.
Proof.
  intros Hcounts. unfold closeDexieDb. destruct (await h w); cbn [snd]; [done..|].
  by apply closeDexieDbResume_keeps_counts.
Qed.

Lemma openSettles_keeps_counts (h : Handle) (ok : bool) (w : World) :
  countsNotPositive w →
  countsNotPositive (openSettles h ok w) ∧
  calls (openSettles h ok w) = calls w.
Proof.
  intros Hcounts. unfold openSettles.
  destruct (dexieDbs w !! h), (settled w !! h); try done.
  destruct ok; [|done].
  match goal with
  | |- context [fold_left _ ?hs ?w0] =>
      destruct (resumeAll_keeps_counts hs w0) as [Hc Hcalls]; [exact Hcounts|]
  end.
  split; [exact Hc|exact Hcalls].
Qed.

Lemma step_keeps_counts (c : Call) (w : World) :
  countsNotPositive w → countsNotPositive (step w c).
Proof.
  intros Hcounts. destruct c as [db col settings schema|h|h ok]; cbn [step].
  - destruct (DEXIE_STATE_DB_BY_NAME w !! dexieDbNameOf db col) as [h|] eqn:Hother.
    + by rewrite (getDexieDbWithTables_existing db col settings schema w h Hother).
    + destruct (getDexieDbWithTables_fresh db col settings schema w Hother)
        as (w' & Hres & _ & Hcount & _).
      rewrite Hres. cbn [snd]. intros h n. rewrite Hcount.
      destruct (decide (length (dexieDbs w) = h)) as [<-|Hne].
      * rewrite lookup_insert_eq. intros [= <-]. lia.
      * rewrite lookup_insert_ne by done. apply Hcounts.
  - by apply closeDexieDb_keeps_counts.
  - by apply openSettles_keeps_counts.
Qed.

Lemma step_adds_no_close (c : Call) (w : World) (h : Handle) :
  countsNotPositive w → closeCalls h (step w c) = closeCalls h w.
Proof.
  intros Hcounts. destruct c as [db col settings schema|h'|h' ok]; cbn [step].
  - destruct (DEXIE_STATE_DB_BY_NAME w !! dexieDbNameOf db col) as [h0|] eqn:Hother.
    + by rewrite (getDexieDbWithTables_existing db col settings schema w h0 Hother).
    + destruct (getDexieDbWithTables_fresh db col settings schema w Hother)
        as (w' & Hres & _ & _ & _ & Hcalls & _).
      rewrite Hres. cbn [snd]. unfold closeCalls.
      rewrite Hcalls, filter_app, length_app.
      rewrite filter_cons_False by discriminate. cbn. lia.
  - unfold closeCalls. by rewrite (proj2 (closeDexieDb_keeps_counts h' w Hcounts)).
  - unfold closeCalls. by rewrite (proj2 (openSettles_keeps_counts h' ok w Hcounts)).
Qed.

Lemma run_adds_no_close (cs : list Call) (w : World) (h : Handle) :
  countsNotPositive w → closeCalls h (run cs w) = closeCalls h w.
Proof.
  revert w. induction cs as [|c cs IH]; intros w Hcounts; [done|].
  cbn. rewrite IH by by apply step_keeps_counts.
  by apply step_adds_no_close.
Qed.

(** C2, as the code has it: after one acquire and its one release the
    count stands at minus one, the connection has not been closed, the
    registry still maps the name to the handle, and the next acquire
    returns that handle without opening anything; and from a world where
    nothing was acquired, no sequence of acquires and releases ever calls
    close. *)
Theorem closeDexieDb_never_reaches_zero :
  (closeCalls 0 acquiredOnce = 0 ∧
   closeDexieDb 0 acquiredOnce = (Returned, releasedOnce) ∧
   closeCalls 0 releasedOnce = 0 ∧
   REF_COUNT_PER_DEXIE_DB releasedOnce !! 0 = Some (Num (-1)) ∧
   DEXIE_STATE_DB_BY_NAME releasedOnce !! dexieDbNameOf "db" "col" = Some 0 ∧
   getDexieDbWithTables "db" "col" 0 idSchema releasedOnce = (0, releasedOnce) ∧
   openCalls releasedOnce = 1) ∧
  ∀ (objs : list DocData) (cs : list Call) (h : Handle),
    closeCalls h (run cs (initialWorld objs)) = 0.
Proof.
  split.
  - repeat split; vm_compute; reflexivity.
  - intros objs cs h. rewrite run_adds_no_close; [reflexivity|].
    intros h' n Hcount. cbn in Hcount. by rewrite lookup_empty in Hcount.
Qed.

(** Against C8 as stated: a second release after a single acquire, and a
    release of a handle the registry does not track, both return as any
    release does; the one leaves the count at minus two, the other at
    not-a-number. *)
Lemma closeDexieDb_misuse_unreported :
  (closeDexieDb 0 releasedOnce).1 = Returned ∧
  REF_COUNT_PER_DEXIE_DB (closeDexieDb 0 releasedOnce).2 !! 0 = Some (Num (-2)) ∧
  REF_COUNT_PER_DEXIE_DB untracked !! 7 = None ∧
  (closeDexieDb 7 untracked).1 = Returned ∧
  REF_COUNT_PER_DEXIE_DB (closeDexieDb 7 untracked).2 !! 7 = Some NaN.
Proof. repeat split; vm_compute; reflexivity. Qed.

(** C8, amended: a release reports no misuse.  It fails only when the
    creation it awaits failed; on a fulfilled handle the registry does not
    track it returns and records not-a-number as the count, and on one
    whose count is zero or below it returns and records the count less
    one; neither closes anything. *)
Theorem closeDexieDb_reports_no_misuse (statePromise : Handle) (w : World) :
  (closeDexieDb statePromise w).1 = await statePromise w ∧
  (await statePromise w = Returned →
   (REF_COUNT_PER_DEXIE_DB w !! statePromise = None →
    closeDexieDb statePromise w
    = (Returned,
       mkWorld (objects w) (DEXIE_STATE_DB_BY_NAME w)
         (<[statePromise := NaN]> (REF_COUNT_PER_DEXIE_DB w))
         (dexieDbs w) (settled w) (calls w) (suspended w))) ∧
   (∀ n : Z,
      REF_COUNT_PER_DEXIE_DB w !! statePromise = Some (Num n) → (n ≤ 0)%Z →
      closeDexieDb statePromise w
      = (Returned,
         mkWorld (objects w) (DEXIE_STATE_DB_BY_NAME w)
           (<[statePromise := Num (n - 1)]> (REF_COUNT_PER_DEXIE_DB w))
           (dexieDbs w) (settled w) (calls w) (suspended w)))).
Proof.
  split; [apply closeDexieDb_outcome|].
  intros Hawait. unfold closeDexieDb, closeDexieDbResume. rewrite Hawait. split.
  - intros ->. reflexivity.
  - intros n -> Hn. cbn [minusOne isZero].
    rewrite bool_decide_eq_false_2 by lia. reflexivity.
Qed.

Lemma closeDexieDb_reports_no_misuse_witness :
  closeDexieDb 0 releasedOnce
  = (Returned,
     mkWorld (objects releasedOnce) (DEXIE_STATE_DB_BY_NAME releasedOnce)
       (<[0 := Num (-1 - 1)]> (REF_COUNT_PER_DEXIE_DB releasedOnce))
       (dexieDbs releasedOnce) (settled releasedOnce) (calls releasedOnce)
       (suspended releasedOnce)).
Proof.
  refine (proj2 (proj2 (closeDexieDb_reports_no_misuse 0 releasedOnce) _) (-1)%Z _ _).
  - vm_compute. reflexivity.
  - vm_compute. reflexivity.
  - lia.
Defined.

(** ** A failed open *)

(** Against C5 as stated: after the open failed, the registry still maps
    the name to the failed handle, and the next acquire returns that handle
    and opens nothing. *)
Lemma failed_open_entry_stays :
  await 0 openFailed = Threw ∧
  DEXIE_STATE_DB_BY_NAME openFailed !! dexieDbNameOf "db" "col" = Some 0 ∧
  getDexieDbWithTables "db" "col" 0 idSchema openFailed = (0, openFailed) ∧
  openCalls (getDexieDbWithTables "db" "col" 0 idSchema openFailed).2 = 1.
Proof. repeat split; vm_compute; reflexivity. Qed.

(** C5, amended: when the open of a pending creation fails, the registry
    is left as it is; from then on every wait on that handle fails, a
    release included, and an acquire for a name the registry maps to the
    handle returns that same failed handle and changes nothing. *)
Theorem failed_open_is_kept_and_surfaced (h : Handle) (w : World) :
  is_Some (dexieDbs w !! h) →
  settled w !! h = None →
  let w' := openSettles h false w in
  DEXIE_STATE_DB_BY_NAME w' = DEXIE_STATE_DB_BY_NAME w ∧
  (∀ later : list Call,
     await h (run later w') = Threw ∧
     closeDexieDb h (run later w') = (Threw, run later w')) ∧
  (∀ databaseName collectionName : string,
     DEXIE_STATE_DB_BY_NAME w !! dexieDbNameOf databaseName collectionName = Some h →
     ∀ (later : list Call) (settings : ObjRef) (schema : RxJsonSchema),
       getDexieDbWithTables databaseName collectionName settings schema (run later w')
       = (h, run later w')).
Proof.
  intros [db Hdb] Hpending w'.
  assert (w' = mkWorld (objects w) (DEXIE_STATE_DB_BY_NAME w)
                 (REF_COUNT_PER_DEXIE_DB w) (dexieDbs w)
                 (<[h := false]> (settled w)) (calls w)
                 (filter (λ h', h' ≠ h) (suspended w))) as Hw'.
  { subst w'. unfold openSettles. by rewrite Hdb, Hpending. }
  assert (∀ later, await h (run later w') = Threw) as Hthrows.
  { intros later. unfold await.
    rewrite (run_keeps_settled later w' h false); [reflexivity|].
    rewrite Hw'. apply lookup_insert_eq. }
  split; [by rewrite Hw'|]. split.
  - intros later. split; [apply Hthrows|].
    unfold closeDexieDb. by rewrite Hthrows.
  - intros databaseName collectionName Hentry later settings schema.
    apply getDexieDbWithTables_existing, run_keeps_entry.
    by rewrite Hw'.
Qed.

Lemma failed_open_is_kept_and_surfaced_witness :
  closeDexieDb 0
    (run [Acquire "db" "col" 0 idSchema]
       (openSettles 0 false
          (getDexieDbWithTables "db" "col" 0 idSchema (initialWorld [∅])).2))
  = (Threw,
     run [Acquire "db" "col" 0 idSchema]
       (openSettles 0 false
          (getDexieDbWithTables "db" "col" 0 idSchema (initialWorld [∅])).2)).
Proof.
  refine (proj2 (proj1 (proj2
            (failed_open_is_kept_and_surfaced 0
               (getDexieDbWithTables "db" "col" 0 idSchema (initialWorld [∅])).2
               _ _)) [Acquire "db" "col" 0 idSchema])).
  - vm_compute. by eexists.
  - vm_compute. reflexivity.
Defined.


(** * Further properties of the helper *)

(** ** Event keys *)

Lemma append_assoc (a b c : string) : (a +:+ b) +:+ c = a +:+ (b +:+ c).
Proof.
  induction a as [|x a IH]; [reflexivity|].
  change (String x ((a +:+ b) +:+ c) = String x (a +:+ (b +:+ c))). by f_equal.
Qed.

Lemma append_cons (x : ascii) (a b : string) :
  String x a +:+ b = String x (a +:+ b).
Proof. reflexivity. Qed.

(** Two strings cut at their first pipe are equal part by part. *)
Lemma split_at_first_pipe (p1 p2 r1 r2 : string) :
  includesChar p1 "|"%char = false →
  includesChar p2 "|"%char = false →
  p1 +:+ String "|"%char r1 = p2 +:+ String "|"%char r2 →
  p1 = p2 ∧ r1 = r2.
Proof.
  revert p2. induction p1 as [|x p1 IH]; intros [|y p2] Hp1 Hp2 Heq.
  - by injection Heq.
  - rewrite append_cons in Heq. injection Heq as <- _.
    cbn in Hp2. by rewrite bool_decide_eq_true_2 in Hp2.
  - rewrite append_cons in Heq. injection Heq as -> _.
    cbn in Hp1. by rewrite bool_decide_eq_true_2 in Hp1.
  - rewrite !append_cons in Heq. injection Heq as -> Heq.
    cbn in Hp1, Hp2. apply orb_false_iff in Hp1 as [_ Hp1].
    apply orb_false_iff in Hp2 as [_ Hp2].
    destruct (IH p2 Hp1 Hp2 Heq) as [-> ->]. done.
Qed.

Lemma getDexieEventKey_unfold (isLocal : bool) (primary revision : string) :
  getDexieEventKey isLocal primary revision
  = (if isLocal then "local|" else "non-local|")
    +:+ primary +:+ String "|"%char revision.
Proof. by destruct isLocal. Qed.

(** X1: an event key tells whether it is local; and when the primary keys
    hold no pipe, two equal event keys come from the same primary key and
    the same revision. *)
Theorem getDexieEventKey_injective
    (l1 l2 : bool) (p1 p2 r1 r2 : string) :
  getDexieEventKey l1 p1 r1 = getDexieEventKey l2 p2 r2 →
  l1 = l2 ∧
  (includesChar p1 "|"%char = false → includesChar p2 "|"%char = false →
   p1 = p2 ∧ r1 = r2).
Proof.
  rewrite !getDexieEventKey_unfold. intros Heq.
  destruct l1, l2; try discriminate Heq.
  all: split; [reflexivity|]; intros Hp1 Hp2.
  all: apply String.app_inj in Heq; by apply split_at_first_pipe.
Qed.

Lemma getDexieEventKey_injective_witness :
  "a" = "a" ∧ "1-x" = "1-x".
Proof.
  exact (proj2 (getDexieEventKey_injective true true "a" "a" "1-x" "1-x" eq_refl)
           eq_refl eq_refl).
Defined.

(** X2: nothing in an event key marks where the primary key ends: a
    primary key with a pipe in it gives the key of the shorter primary key
    whose revision starts with the rest. *)
Theorem getDexieEventKey_pipe_collision (isLocal : bool) (a b revision : string) :
  getDexieEventKey isLocal (a +:+ "|" +:+ b) revision
  = getDexieEventKey isLocal a (b +:+ "|" +:+ revision).
Proof.
  rewrite !getDexieEventKey_unfold. f_equal.
  change ("|" +:+ b) with (String "|"%char b).
  change ("|" +:+ revision) with (String "|"%char revision).
  rewrite append_assoc, append_cons. reflexivity.
Qed.

(** ** More on escaping *)

Lemma prefix_append (a b : string) : String.prefix a (a +:+ b) = true.
Proof.
  induction a as [|x a IH]; [by destruct b|].
  rewrite append_cons. cbn. by destruct (ascii_dec x x).
Qed.

Lemma escaped_no_pipe (name : string) :
  Js.startsWith (dexieReplaceIfStartsWithPipe name) "|"%char = false.
Proof.
  unfold dexieReplaceIfStartsWithPipe.
  destruct (Js.startsWith name "|"%char) eqn:Hname; [reflexivity|exact Hname].
Qed.

(** X3: an escaped name never starts with the pipe, and escaping an
    escaped name changes nothing. *)
Theorem dexieReplaceIfStartsWithPipe_idempotent (name : string) :
  Js.startsWith (dexieReplaceIfStartsWithPipe name) "|"%char = false ∧
  dexieReplaceIfStartsWithPipe (dexieReplaceIfStartsWithPipe name)
  = dexieReplaceIfStartsWithPipe name.
Proof.
  split; [apply escaped_no_pipe|].
  unfold dexieReplaceIfStartsWithPipe at 1. by rewrite escaped_no_pipe.
Qed.

(** X4: escaping keeps apart any two names of which neither starts with
    the substitute token; a name that does start with the token is what the
    name with a pipe in the token's place escapes to. *)
Theorem dexieReplaceIfStartsWithPipe_injective :
  (∀ a b : string,
     String.prefix DEXIE_PIPE_SUBSTITUTE a = false →
     String.prefix DEXIE_PIPE_SUBSTITUTE b = false →
     dexieReplaceIfStartsWithPipe a = dexieReplaceIfStartsWithPipe b →
     a = b) ∧
  (∀ rest : string,
     dexieReplaceIfStartsWithPipe (String "|"%char rest)
     = dexieReplaceIfStartsWithPipe (DEXIE_PIPE_SUBSTITUTE +:+ rest)).
Proof.
  split.
  - intros a b Ha Hb. unfold dexieReplaceIfStartsWithPipe.
    destruct (Js.startsWith a "|"%char) eqn:Hpa,
             (Js.startsWith b "|"%char) eqn:Hpb; intros Heq.
    + apply String.app_inj in Heq.
      destruct a as [|x a], b as [|y b]; try discriminate.
      cbn in Hpa, Hpb, Heq.
      apply bool_decide_eq_true_1 in Hpa, Hpb. by subst.
    + subst b. by rewrite prefix_append in Hb.
    + subst a. by rewrite prefix_append in Ha.
    + exact Heq.
  - intros rest. reflexivity.
Qed.

Lemma dexieReplaceIfStartsWithPipe_injective_witness : "|a" = "|a".
Proof.
  exact (proj1 dexieReplaceIfStartsWithPipe_injective "|a" "|a"
           eq_refl eq_refl eq_refl).
Defined.

(** ** More on the store schema *)

(** X5: the store schema does not tell how a single-field index was
    written: anywhere in the index list, a field path and the array of
    that one path give the same schema, in which the field stands as its
    escaped name alone; and no index list gives what the empty one
    gives. *)
Theorem getDexieStoreSchema_normalizes (pk : PrimaryKey) :
  (∀ (before after : list IndexDef) (path : string),
     getDexieStoreSchema
       {| primaryKey := pk; indexes := Some (before ++ IndexString path :: after)%list |}
     = getDexieStoreSchema
         {| primaryKey := pk;
            indexes := Some (before ++ IndexArray [path] :: after)%list |}) ∧
  (∀ path : string,
     getDexieStoreSchema {| primaryKey := pk; indexes := Some [IndexString path] |}
     = dexieReplaceIfStartsWithPipe (getPrimaryFieldOfPrimaryKey pk)
       +:+ ", " +:+ dexieReplaceIfStartsWithPipe path) ∧
  getDexieStoreSchema {| primaryKey := pk; indexes := Some [] |}
  = getDexieStoreSchema {| primaryKey := pk; indexes := None |}.
Proof.
  split; [|split; reflexivity].
  intros before after path.
  unfold getDexieStoreSchema, storeSchemaParts. cbn [indexes primaryKey].
  do 3 f_equal. rewrite !map_app. reflexivity.
Qed.

Lemma getDexieStoreSchema_startsWith (schema : RxJsonSchema) :
  Js.startsWith (getDexieStoreSchema schema) "|"%char = false.
Proof.
  unfold getDexieStoreSchema, storeSchemaParts.
  set (pk := getPrimaryFieldOfPrimaryKey (primaryKey schema)).
  assert (∀ groups : list (list string),
            Js.startsWith
              (Js.join ", " (map renderPart
                 (map (map dexieReplaceIfStartsWithPipe) ([pk] :: groups))))
              "|"%char = false) as Hjoin.
  { intros groups. cbn [map renderPart].
    destruct (join_cons ", " (dexieReplaceIfStartsWithPipe pk)
                (map renderPart (map (map dexieReplaceIfStartsWithPipe) groups)))
      as (tail & -> & Htail).
    pose proof (escaped_no_pipe pk) as Hpk.
    destruct (dexieReplaceIfStartsWithPipe pk) as [|x rest]; [|exact Hpk].
    destruct Htail as [->|[more ->]]; reflexivity. }
  destruct (indexes schema) as [ixs|]; [apply Hjoin|apply (Hjoin [])].
Qed.

(** X6: no field of any group of the store schema starts with the pipe
    once the groups are escaped, and the store schema itself never starts
    with it, whatever the primary key and the indexes are. *)
Theorem getDexieStoreSchema_no_leading_pipe (schema : RxJsonSchema) :
  Forall (Forall (λ field, Js.startsWith field "|"%char = false))
    (map (map dexieReplaceIfStartsWithPipe) (storeSchemaParts schema)) ∧
  Js.startsWith (getDexieStoreSchema schema) "|"%char = false.
Proof.
  split; [|apply getDexieStoreSchema_startsWith].
  apply Forall_forall. intros group Hgroup.
  apply Forall_forall. intros field Hfield.
  apply list_elem_of_In, in_map_iff in Hgroup as (raw & <- & _).
  apply list_elem_of_In, in_map_iff in Hfield as (name & <- & _).
  apply escaped_no_pipe.
Qed.

(** ** More on reading documents *)

Lemma getDocsInDb_as_union (state : DexieStorageInternals) (docIds : list string) :
  getDocsInDb state docIds
  = bulkGet (dexieTable state ∪ dexieDeletedTable state) docIds.
Proof.
  destruct (getDocsInDb_slots state docIds) as [Hlen Hget].
  apply list_eq. intros i. rewrite bulkGet_lookup.
  destruct (docIds !! i) as [id|] eqn:Hid.
  - rewrite (Hget i id Hid). cbn. f_equal. rewrite lookup_union.
    by destruct (dexieTable state !! id), (dexieDeletedTable state !! id).
  - cbn. apply lookup_ge_None. apply lookup_ge_None in Hid. lia.
Qed.

(** X7: reading through [getDocsInDb] is one [bulkGet] on the active table
    laid over the tombstone table; with an empty tombstone table it is the
    read of the active table, with an empty active table that of the
    tombstone table. *)
Theorem getDocsInDb_is_bulkGet_of_overlay
    (state : DexieStorageInternals) (docIds : list string) :
  getDocsInDb state docIds
  = bulkGet (dexieTable state ∪ dexieDeletedTable state) docIds ∧
  (dexieDeletedTable state = ∅ →
   getDocsInDb state docIds = bulkGet (dexieTable state) docIds) ∧
  (dexieTable state = ∅ →
   getDocsInDb state docIds = bulkGet (dexieDeletedTable state) docIds).
Proof.
  rewrite getDocsInDb_as_union. split; [reflexivity|]. split.
  - intros ->. by rewrite (right_id_L ∅ (∪)).
  - intros ->. by rewrite (left_id_L ∅ (∪)).
Qed.

Lemma getDocsInDb_is_bulkGet_of_overlay_witness :
  getDocsInDb tombstoneExample ["y"; "z"]
  = bulkGet (dexieDeletedTable tombstoneExample) ["y"; "z"].
Proof.
  exact (proj2 (proj2 (getDocsInDb_is_bulkGet_of_overlay tombstoneExample
                         ["y"; "z"])) eq_refl).
Defined.

(** X8: the slot of an id does not depend on the other ids asked for: the
    read of two id lists one after the other is the two reads one after the
    other, an id asked for twice gets the same answer twice, and no ids
    give no slots. *)
Theorem getDocsInDb_app (state : DexieStorageInternals) (ids1 ids2 : list string) :
  getDocsInDb state (ids1 ++ ids2)
  = (getDocsInDb state ids1 ++ getDocsInDb state ids2)%list ∧
  (∀ (i j : nat) (id : string),
     ids1 !! i = Some id → ids1 !! j = Some id →
     getDocsInDb state ids1 !! i = getDocsInDb state ids1 !! j) ∧
  getDocsInDb state [] = [].
Proof.
  split; [|split; [|reflexivity]].
  - rewrite !getDocsInDb_as_union. unfold bulkGet. apply map_app.
  - intros i j id Hi Hj. rewrite getDocsInDb_as_union, !bulkGet_lookup.
    by rewrite Hi, Hj.
Qed.

Lemma getDocsInDb_app_witness :
  getDocsInDb mergeExample ["x"; "y"; "x"] !! 0
  = getDocsInDb mergeExample ["x"; "y"; "x"] !! 2.
Proof.
  exact (proj1 (proj2 (getDocsInDb_app mergeExample ["x"; "y"; "x"] []))
           0 2 "x" eq_refl eq_refl).
Defined.

(** X9: stripping is idempotent and leaves a record without the field as
    it is; and a caller that strips every record [getDocsInDb] returns gets
    records without [$lastWriteAt], one slot per id as before. *)
Theorem stripDexieKey_after_getDocsInDb
    (state : DexieStorageInternals) (docIds : list string) :
  (∀ docData : DocData,
     stripDexieKey (stripDexieKey docData) = stripDexieKey docData) ∧
  (∀ docData : DocData,
     docData !! "$lastWriteAt" = None → stripDexieKey docData = docData) ∧
  length (map (option_map stripDexieKey) (getDocsInDb state docIds))
  = length docIds ∧
  (∀ (i : nat) (doc : DocData),
     map (option_map stripDexieKey) (getDocsInDb state docIds) !! i
     = Some (Some doc) →
     doc !! "$lastWriteAt" = None).
Proof.
  split; [|split; [|split]].
  - intros docData. unfold stripDexieKey.
    apply delete_id. apply lookup_delete_eq.
  - intros docData Hnone. unfold stripDexieKey. by apply delete_id.
  - rewrite length_map. apply (getDocsInDb_slots state docIds).
  - intros i doc. change (map ?f ?l) with (f <$> l). rewrite list_lookup_fmap.
    destruct (getDocsInDb state docIds !! i) as [[stored|]|]; cbn; try done.
    intros [= <-]. unfold stripDexieKey. apply lookup_delete_eq.
Qed.

Lemma stripDexieKey_after_getDocsInDb_witness :
  stripDexieKey {[ "id" := JsString "y" ]} = {[ "id" := JsString "y" ]}.
Proof.
  exact (proj1 (proj2 (stripDexieKey_after_getDocsInDb tombstoneExample []))
           {[ "id" := JsString "y" ]} eq_refl).
Defined.

(** ** More on the registry *)

(** The world after the first acquire for a name, in full. *)
Lemma getDexieDbWithTables_fresh_world
    (databaseName collectionName : string) (settings : ObjRef)
    (schema : RxJsonSchema) (w : World) :
  let dexieDbName := dexieDbNameOf databaseName collectionName in
  let state := length (dexieDbs w) in
  DEXIE_STATE_DB_BY_NAME w !! dexieDbName = None →
  getDexieDbWithTables databaseName collectionName settings schema w
  = (state,
     mkWorld
       (alter (insert "autoOpen" (JsBool false)) (length (objects w))
          (objects w ++ [default ∅ (objects w !! settings)])%list)
       (<[dexieDbName := state]> (DEXIE_STATE_DB_BY_NAME w))
       (<[state := Num 0]> (REF_COUNT_PER_DEXIE_DB w))
       (dexieDbs w ++
          [ {| dbName := dexieDbName;
               dbOptions := length (objects w);
               dbStores :=
                 [ (DEXIE_DOCS_TABLE_NAME, getDexieStoreSchema schema);
                   (DEXIE_CHANGES_TABLE_NAME, "++sequence, id");
                   (DEXIE_DELETED_DOCS_TABLE_NAME,
                    getPrimaryFieldOfPrimaryKey (primaryKey schema)
                    +:+ ",$lastWriteAt") ] |} ])%list
       (settled w)
       (calls w ++ [PhysicalOpen state])%list
       (suspended w)).
Proof.
  intros name state Hfresh. unfold getDexieDbWithTables. fold name.
  rewrite Hfresh. reflexivity.
Qed.

Lemma openCalls_snoc_open (w : World) (evs : list Event) (h : Handle) :
  length (filter (λ e, isOpenCall e = true) (evs ++ [PhysicalOpen h])%list)
  = S (length (filter (λ e, isOpenCall e = true) evs)).
Proof.
  rewrite filter_app, length_app.
  rewrite filter_cons_True by reflexivity. cbn. lia.
Qed.

Lemma openCalls_snoc_close (evs : list Event) (h : Handle) :
  length (filter (λ e, isOpenCall e = true) (evs ++ [PhysicalClose h])%list)
  = length (filter (λ e, isOpenCall e = true) evs).
Proof.
  rewrite filter_app, length_app.
  rewrite filter_cons_False by discriminate. cbn. lia.
Qed.

Lemma closeDexieDbResume_openCalls (h : Handle) (w : World) :
  openCalls (closeDexieDbResume h w) = openCalls w.
Proof.
  unfold closeDexieDbResume, openCalls. destruct (isZero _); cbn; [|done].
  apply openCalls_snoc_close.
Qed.

Lemma resumeAll_openCalls (hs : list Handle) (w : World) :
  openCalls (fold_left (λ w h', closeDexieDbResume h' w) hs w) = openCalls w.
Proof.
  revert w. induction hs as [|h hs IH]; intros w; [done|]. cbn.
  rewrite IH. apply closeDexieDbResume_openCalls.
Qed.

Lemma closeDexieDb_openCalls (h : Handle) (w : World) :
  openCalls (closeDexieDb h w).2 = openCalls w.
Proof.
  unfold closeDexieDb. destruct (await h w); cbn [snd]; [done..|].
  apply closeDexieDbResume_openCalls.
Qed.

Lemma openSettles_openCalls (h : Handle) (ok : bool) (w : World) :
  openCalls (openSettles h ok w) = openCalls w.
Proof.
  unfold openSettles.
  destruct (dexieDbs w !! h), (settled w !! h); try done.
  destruct ok; [|done]. by rewrite resumeAll_openCalls.
Qed.

Lemma step_registryConsistent (c : Call) (w : World) :
  registryConsistent w → registryConsistent (step w c).
Proof.
  intros (Hnames & Hsize & Hopens).
  destruct c as [db col settings schema|h|h ok]; cbn [step].
  - destruct (DEXIE_STATE_DB_BY_NAME w !! dexieDbNameOf db col) as [h|] eqn:Hother.
    + by rewrite (getDexieDbWithTables_existing db col settings schema w h Hother).
    + rewrite (getDexieDbWithTables_fresh_world db col settings schema w Hother).
      cbn [snd]. split; [|split]; cbn.
      * intros name h. destruct (decide (dexieDbNameOf db col = name)) as [<-|Hne].
        -- rewrite lookup_insert_eq. intros [= <-].
           rewrite lookup_app_r by lia. by rewrite Nat.sub_diag.
        -- rewrite lookup_insert_ne by done. intros Hentry.
           specialize (Hnames name h Hentry).
           destruct (dexieDbs w !! h) as [d|] eqn:Hd; [|done].
           by rewrite (lookup_app_l_Some _ _ _ _ Hd).
      * rewrite map_size_insert_None by done. rewrite length_app. cbn. lia.
      * unfold openCalls. cbn. rewrite (openCalls_snoc_open w), length_app.
        unfold openCalls in Hopens. cbn. lia.
  - destruct (closeDexieDb_fields h w) as (_ & Hn & Hd & _).
    unfold registryConsistent. by rewrite Hn, Hd, closeDexieDb_openCalls.
  - destruct (openSettles_fields h ok w) as (_ & Hn & Hd & _).
    unfold registryConsistent. by rewrite Hn, Hd, openSettles_openCalls.
Qed.

Lemma run_registryConsistent (cs : list Call) (w : World) :
  registryConsistent w → registryConsistent (run cs w).
Proof.
  revert w. induction cs as [|c cs IH]; intros w Hw; [done|].
  cbn. apply IH. by apply step_registryConsistent.
Qed.

(** X10: in every world the calls reach from one where nothing was
    acquired, a handle in the registry is the instance that was created
    under that name, no two names share a handle, and open has been called
    once for each name in the registry. *)
Theorem registry_names_and_opens (objs : list DocData) (cs : list Call) :
  let w := run cs (initialWorld objs) in
  (∀ name h, DEXIE_STATE_DB_BY_NAME w !! name = Some h →
             dbName <$> dexieDbs w !! h = Some name) ∧
  (∀ name1 name2 h,
     DEXIE_STATE_DB_BY_NAME w !! name1 = Some h →
     DEXIE_STATE_DB_BY_NAME w !! name2 = Some h →
     name1 = name2) ∧
  openCalls w = size (DEXIE_STATE_DB_BY_NAME w).
Proof.
  intros w.
  assert (registryConsistent w) as (Hnames & Hsize & Hopens).
  { apply run_registryConsistent. split; [|split]; [|reflexivity..].
    intros name h Hentry. cbn in Hentry. by rewrite lookup_empty in Hentry. }
  split; [exact Hnames|]. split; [|lia].
  intros name1 name2 h H1 H2.
  pose proof (Hnames name1 h H1) as Hd1. pose proof (Hnames name2 h H2) as Hd2.
  congruence.
Qed.

Lemma registry_names_and_opens_witness :
  dbName <$> dexieDbs releasedOnce !! 0 = Some (dexieDbNameOf "db" "col").
Proof.
  exact (proj1 (registry_names_and_opens [∅]
                  [Acquire "db" "col" 0 idSchema; OpenSettles 0 true; Release 0])
           (dexieDbNameOf "db" "col") 0 eq_refl).
Defined.

Lemma getDexieDbWithTables_installs
    (databaseName collectionName : string) (settings : ObjRef)
    (schema : RxJsonSchema) (w : World) :
  let result := getDexieDbWithTables databaseName collectionName settings schema w in
  DEXIE_STATE_DB_BY_NAME result.2 !! dexieDbNameOf databaseName collectionName
  = Some result.1.
Proof.
  intros result. subst result.
  destruct (DEXIE_STATE_DB_BY_NAME w !! dexieDbNameOf databaseName collectionName)
    as [h|] eqn:Hw.
  - by rewrite (getDexieDbWithTables_existing _ _ settings schema w h Hw).
  - rewrite (getDexieDbWithTables_fresh_world _ _ settings schema w Hw).
    cbn. apply lookup_insert_eq.
Qed.

(** X11: the name of the physical database does not keep the database
    name and the collection name apart: the pairs [(a--b, c)] and
    [(a, b--c)] have one name, so an acquire for the second after one for
    the first returns the first one's handle, whatever its settings and
    schema, and creates nothing. *)
Theorem dexieDbNameOf_collision
    (a b c : string) (settings settings' : ObjRef)
    (schema schema' : RxJsonSchema) (w : World) :
  dexieDbNameOf (a +:+ "--" +:+ b) c = dexieDbNameOf a (b +:+ "--" +:+ c) ∧
  let first := getDexieDbWithTables (a +:+ "--" +:+ b) c settings schema w in
  getDexieDbWithTables a (b +:+ "--" +:+ c) settings' schema' first.2
  = (first.1, first.2).
Proof.
  assert (dexieDbNameOf (a +:+ "--" +:+ b) c = dexieDbNameOf a (b +:+ "--" +:+ c))
    as Hname.
  { unfold dexieDbNameOf. f_equal. by rewrite !append_assoc. }
  split; [exact Hname|]. intros first.
  apply getDexieDbWithTables_existing. rewrite <- Hname.
  apply getDexieDbWithTables_installs.
Qed.

(** X12: an acquire that creates an instance declares three stores: the
    documents under the compiled store schema, the changes, and the
    tombstones under the primary-key path as the schema has it, not
    escaped; so when that path starts with a pipe the tombstone declaration
    starts with the pipe while the documents declaration does not. *)
Theorem getDexieDbWithTables_declares_stores
    (databaseName collectionName : string) (settings : ObjRef)
    (schema : RxJsonSchema) (w : World) :
  DEXIE_STATE_DB_BY_NAME w !! dexieDbNameOf databaseName collectionName = None →
  let result := getDexieDbWithTables databaseName collectionName settings schema w in
  let primaryPath := getPrimaryFieldOfPrimaryKey (primaryKey schema) in
  dbStores <$> dexieDbs result.2 !! result.1
  = Some [ ("docs", getDexieStoreSchema schema);
           ("changes", "++sequence, id");
           ("deleted-docs", primaryPath +:+ ",$lastWriteAt") ] ∧
  Js.startsWith (getDexieStoreSchema schema) "|"%char = false ∧
  Js.startsWith (primaryPath +:+ ",$lastWriteAt") "|"%char
  = Js.startsWith primaryPath "|"%char.
Proof.
  intros Hfresh result primaryPath. subst result.
  rewrite (getDexieDbWithTables_fresh_world _ _ settings schema w Hfresh).
  cbn [fst snd dexieDbs]. split; [|split].
  - rewrite lookup_app_r by lia. by rewrite Nat.sub_diag.
  - apply getDexieStoreSchema_startsWith.
  - by destruct primaryPath.
Qed.

Lemma getDexieDbWithTables_declares_stores_witness :
  dbStores <$> dexieDbs
    (getDexieDbWithTables "db" "col" 0
       {| primaryKey := PrimaryKeyString "|a"; indexes := None |}
       (initialWorld [∅])).2 !! 0
  = Some [ ("docs", "RxDBSubstPIPEa");
           ("changes", "++sequence, id");
           ("deleted-docs", "|a,$lastWriteAt") ].
Proof.
  exact (proj1 (getDexieDbWithTables_declares_stores "db" "col" 0
                  {| primaryKey := PrimaryKeyString "|a"; indexes := None |}
                  (initialWorld [∅]) eq_refl)).
Defined.

(** X13: an acquire leaves what is there alone: every object of the heap,
    every instance, every other name's entry and every other handle's
    count stay as they were, no promise settles, and no call to close is
    made. *)
Theorem getDexieDbWithTables_frame
    (databaseName collectionName : string) (settings : ObjRef)
    (schema : RxJsonSchema) (w : World) :
  let result := getDexieDbWithTables databaseName collectionName settings schema w in
  (∀ obj : ObjRef, obj < length (objects w) →
     objects result.2 !! obj = objects w !! obj) ∧
  (∀ h : Handle, h < length (dexieDbs w) →
     dexieDbs result.2 !! h = dexieDbs w !! h) ∧
  (∀ name : string, name ≠ dexieDbNameOf databaseName collectionName →
     DEXIE_STATE_DB_BY_NAME result.2 !! name = DEXIE_STATE_DB_BY_NAME w !! name) ∧
  (∀ h : Handle, h ≠ result.1 →
     REF_COUNT_PER_DEXIE_DB result.2 !! h = REF_COUNT_PER_DEXIE_DB w !! h) ∧
  settled result.2 = settled w ∧
  (∀ h : Handle, closeCalls h result.2 = closeCalls h w).
Proof.
  intros result. subst result.
  destruct (DEXIE_STATE_DB_BY_NAME w !! dexieDbNameOf databaseName collectionName)
    as [h|] eqn:Hw.
  - rewrite (getDexieDbWithTables_existing _ _ settings schema w h Hw). done.
  - rewrite (getDexieDbWithTables_fresh_world _ _ settings schema w Hw).
    cbn [fst snd objects dexieDbs DEXIE_STATE_DB_BY_NAME REF_COUNT_PER_DEXIE_DB
         settled].
    repeat split.
    + intros obj Hobj. rewrite list_lookup_alter_ne by lia. by apply lookup_app_l.
    + intros h Hh. by apply lookup_app_l.
    + intros name Hname. by apply lookup_insert_ne.
    + intros h Hh. by apply lookup_insert_ne.
    + intros h. unfold closeCalls. cbn [calls].
      rewrite filter_app, length_app.
      rewrite filter_cons_False by discriminate. cbn. lia.
Qed.

Lemma getDexieDbWithTables_frame_witness :
  DEXIE_STATE_DB_BY_NAME
    (getDexieDbWithTables "other" "col" 0 idSchema acquiredOnce).2
    !! dexieDbNameOf "db" "col"
  = DEXIE_STATE_DB_BY_NAME acquiredOnce !! dexieDbNameOf "db" "col".
Proof.
  refine (proj1 (proj2 (proj2 (getDexieDbWithTables_frame "other" "col" 0 idSchema
                                 acquiredOnce))) (dexieDbNameOf "db" "col") _).
  vm_compute. discriminate.
Defined.

(** ** More on releasing *)

Lemma filter_same_absent (h : Handle) (hs : list Handle) :
  h ∉ hs → filter (λ h', h' = h) hs = [].
Proof.
  induction hs as [|x hs IH]; [done|].
  rewrite not_elem_of_cons. intros [Hne Hnotin].
  rewrite filter_cons_False by congruence. by apply IH.
Qed.

(** X14: a release changes the count of its handle and nothing else but,
    when it closes, the list of calls: the heap, the registry of names, the
    instances, the settled promises and every other handle's count stay as
    they were.  On a rejected creation it changes nothing at all.  On a
    pending creation it changes nothing yet and waits; when the open then
    succeeds the count is lowered by one as for any release, and when the
    open fails the count stays. *)
Theorem closeDexieDb_frame (statePromise : Handle) (w : World) :
  let result := closeDexieDb statePromise w in
  objects result.2 = objects w ∧
  DEXIE_STATE_DB_BY_NAME result.2 = DEXIE_STATE_DB_BY_NAME w ∧
  dexieDbs result.2 = dexieDbs w ∧
  settled result.2 = settled w ∧
  (∀ h : Handle, h ≠ statePromise →
     REF_COUNT_PER_DEXIE_DB result.2 !! h = REF_COUNT_PER_DEXIE_DB w !! h ∧
     closeCalls h result.2 = closeCalls h w) ∧
  openCalls result.2 = openCalls w ∧
  (await statePromise w = Threw → result.2 = w) ∧
  (await statePromise w = Suspended →
   REF_COUNT_PER_DEXIE_DB result.2 = REF_COUNT_PER_DEXIE_DB w ∧
   calls result.2 = calls w ∧
   suspended result.2 = (suspended w ++ [statePromise])%list ∧
   ∀ n : Z,
     is_Some (dexieDbs w !! statePromise) →
     statePromise ∉ suspended w →
     REF_COUNT_PER_DEXIE_DB w !! statePromise = Some (Num n) →
     n ≠ 1%Z →
     REF_COUNT_PER_DEXIE_DB (openSettles statePromise true result.2) !! statePromise
     = Some (Num (n - 1)) ∧
     REF_COUNT_PER_DEXIE_DB (openSettles statePromise false result.2)
     = REF_COUNT_PER_DEXIE_DB w).
Proof.
  intros result. subst result.
  destruct (closeDexieDb_fields statePromise w) as (Ho & Hn & Hd & Hs).
  split; [exact Ho|]. split; [exact Hn|]. split; [exact Hd|]. split; [exact Hs|].
  split; [|split; [apply closeDexieDb_openCalls|split]].
  - intros h Hne. unfold closeDexieDb, closeDexieDbResume.
    destruct (await statePromise w); cbn [snd]; [done..|].
    destruct (isZero _); cbn; split.
    + by apply lookup_delete_ne.
    + unfold closeCalls. cbn. rewrite filter_app, length_app.
      rewrite filter_cons_False by congruence. cbn. lia.
    + by apply lookup_insert_ne.
    + reflexivity.
  - intros Hawait. unfold closeDexieDb. by rewrite Hawait.
  - intros Hawait. unfold closeDexieDb. rewrite Hawait. cbn [snd].
    split; [reflexivity|]. split; [reflexivity|]. split; [reflexivity|].
    intros n [db Hdb] Hnotin Hcount Hnot1.
    assert (settled w !! statePromise = None) as Hpending.
    { unfold await in Hawait. by destruct (settled w !! statePromise) as [[]|]. }
    unfold openSettles. cbn [dexieDbs settled suspended].
    rewrite Hdb, Hpending. split; [|reflexivity].
    rewrite filter_app, (filter_same_absent _ _ Hnotin).
    rewrite filter_cons_True by reflexivity. cbn [app filter fold_left].
    change (filter _ []) with (@nil Handle). cbn [fold_left].
    unfold closeDexieDbResume. cbn [REF_COUNT_PER_DEXIE_DB].
    rewrite Hcount. cbn [minusOne isZero].
    rewrite bool_decide_eq_false_2 by lia. cbn. apply lookup_insert_eq.
Qed.

Lemma closeDexieDb_frame_witness :
  REF_COUNT_PER_DEXIE_DB
    (openSettles 0 true
       (closeDexieDb 0
          (getDexieDbWithTables "db" "col" 0 idSchema (initialWorld [∅])).2).2)
    !! 0
  = Some (Num (0 - 1)).
Proof.
  refine (proj1 (proj2 (proj2 (proj2
            (proj2 (proj2 (proj2 (proj2 (proj2 (proj2 (proj2
               (closeDexieDb_frame 0
                  (getDexieDbWithTables "db" "col" 0 idSchema
                     (initialWorld [∅])).2))))))) _)))
            0%Z _ _ _ _)).
  - vm_compute. reflexivity.
  - vm_compute. by eexists.
  - vm_compute. apply not_elem_of_nil.
  - vm_compute. reflexivity.
  - discriminate.
Defined.

Lemma closeDexieDb_decrements (statePromise : Handle) (w : World) (n : Z) :
  await statePromise w = Returned →
  REF_COUNT_PER_DEXIE_DB w !! statePromise = Some (Num n) →
  n ≠ 1%Z →
  closeDexieDb statePromise w
  = (Returned,
     mkWorld (objects w) (DEXIE_STATE_DB_BY_NAME w)
       (<[statePromise := Num (n - 1)]> (REF_COUNT_PER_DEXIE_DB w))
       (dexieDbs w) (settled w) (calls w) (suspended w)).
Proof.
  intros Hawait Hcount Hn. unfold closeDexieDb, closeDexieDbResume.
  rewrite Hawait, Hcount.
  cbn [minusOne isZero]. rewrite bool_decide_eq_false_2 by lia. reflexivity.
Qed.

(** X15: releases of one fulfilled handle add up: from a count of zero or
    below, [k] releases leave the count [k] lower and make no call to
    close. *)
Theorem closeDexieDb_repeated (statePromise : Handle) (k : nat) :
  ∀ (w : World) (n : Z),
    await statePromise w = Returned →
    REF_COUNT_PER_DEXIE_DB w !! statePromise = Some (Num n) →
    (n ≤ 0)%Z →
    let w' := run (replicate k (Release statePromise)) w in
    REF_COUNT_PER_DEXIE_DB w' !! statePromise = Some (Num (n - Z.of_nat k)) ∧
    calls w' = calls w ∧
    await statePromise w' = Returned.
Proof.
  induction k as [|k IH]; intros w n Hawait Hcount Hn.
  - cbn. rewrite Z.sub_0_r. done.
  - cbn [replicate run fold_left step].
    rewrite (closeDexieDb_decrements statePromise w n Hawait Hcount) by lia.
    cbn [snd].
    set (w1 := mkWorld _ _ _ _ _ _ _).
    destruct (IH w1 (n - 1)%Z) as (Hc & Hcalls & Haw).
    + exact Hawait.
    + subst w1. cbn. apply lookup_insert_eq.
    + lia.
    + fold (run (replicate k (Release statePromise)) w1).
      rewrite Hc, Hcalls, Haw. repeat split. do 2 f_equal. lia.
Qed.

Lemma closeDexieDb_repeated_witness :
  REF_COUNT_PER_DEXIE_DB (run (replicate 3 (Release 0)) acquiredOnce) !! 0
  = Some (Num (0 - Z.of_nat 3)).
Proof.
  refine (proj1 (closeDexieDb_repeated 0 3 acquiredOnce 0%Z _ _ _)).
  - vm_compute. reflexivity.
  - vm_compute. reflexivity.
  - lia.
Defined.

(** ** More on the sort object *)




(** ** More on the comparator *)

Lemma sort_same (compareValues : option JsValue → option JsValue → comparison)
    (sortKeys : list (string * Z)) (a : DocObject) :
  Mingo.sort compareValues [a; a] sortKeys = [a; a].
Proof.
  induction sortKeys as [|[key direction] rest IH]; [reflexivity|].
  cbn [Mingo.sort foldr fst snd].
  change (foldr _ [a; a] rest) with (Mingo.sort compareValues [a; a] rest).
  rewrite IH. cbn.
  by destruct (Mingo.inOrder compareValues key direction a a).
Qed.

(** X18: a document compared with itself is "less": the comparator
    answers [-1], whatever the query and however values compare. *)
Theorem getDexieSortComparator_self
    (compareValues : option JsValue → option JsValue → comparison)
    (schema : RxJsonSchema) (query : MangoQuery) (a : DocObject) :
  getDexieSortComparator compareValues schema query a a = (-1)%Z.
Proof.
  unfold getDexieSortComparator. rewrite sort_same. cbn [head].
  by rewrite decide_True.
Qed.




Section ComparatorByKeys.

Variable compareValues : option JsValue → option JsValue → comparison.

(** Turning the arguments round turns the answer round. *)
Hypothesis compare_antisym : ∀ x y, compareValues y x = CompOpp (compareValues x y).


End ComparatorByKeys.



